(** * Dense subvector views of Blaze: a shallow embedding of
      blaze/math/views/DenseSubvector.h and the properties of its
      construction, element access and assignment engine. *)

From Stdlib Require Import ZArith Lia Bool String.
From stdpp Require Import base tactics option list list_numbers functions.

Local Open Scope Z_scope.

(** ** size_t arithmetic

    Every index, offset and size of the header is a [size_t]: an unsigned
    64-bit integer whose arithmetic wraps around.  A [size_t] is a [Z] in
    [0, 2^64); each operation the code performs on one is written with its
    wrap-around. *)

Definition size_t_bits : Z := 64.
Definition size_t_modulus : Z := 2 ^ size_t_bits.
Definition SIZE_MAX : Z := size_t_modulus - 1.

Definition wrap (z : Z) : Z := z mod size_t_modulus.
Definition sadd (a b : Z) : Z := wrap (a + b).
Definition ssub (a b : Z) : Z := wrap (a - b).
Definition smul (a b : Z) : Z := wrap (a * b).
(** [size_t(-x)] *)
Definition sneg (a : Z) : Z := wrap (- a).

Definition is_size_t (z : Z) : Prop := 0 <= z < size_t_modulus.

(** ** Loops

    [for( size_t i=a; i<iend; i+=step ) body] over a state [St].  The loop
    makes at most [iend - a] iterations when [step >= 1], which is the fuel
    [for_loop] supplies. *)

Fixpoint for_loop_fuel {St : Type} (fuel : nat) (i iend step : Z)
    (body : Z -> St -> St) (s : St) : St :=
  match fuel with
  | O => s
  | S fuel' =>
      if i <? iend
      then for_loop_fuel fuel' (sadd i step) iend step body (body i s)
      else s
  end.

Definition for_loop {St : Type} (i iend step : Z) (body : Z -> St -> St) (s : St) : St :=
  for_loop_fuel (Z.to_nat (iend - i)) i iend step body s.

(** ** Element types and intrinsic traits *)

(** The element type of a vector: its default value (what [reset] and
    value-initialisation produce) and the arithmetic the assignment kernels
    use. *)
Class Element (T : Type) := {
  zero : T;
  add : T -> T -> T;
  sub : T -> T -> T;
  mul : T -> T -> T
}.

(** [IntrinsicTrait<ElementType>], the [vectorizable] flag of the vector
    type and the system constants of blaze/system/CacheSize.h and
    Streaming.h.  None of them is defined in the header; they are
    parameters of the model. *)
Class IntrinsicTrait := {
  IT_size : Z;
  vectorizable : bool;
  IT_addition : bool;
  IT_subtraction : bool;
  IT_multiplication : bool;
  sizeof_ElementType : Z;
  cacheSize : Z;
  useStreaming : bool
}.

Inductive exn : Type :=
| invalid_argument (what : string).

(** Addresses of vector objects: [&vector_] is the address of the parent. *)
Definition addr : Type := nat.

Section Model.
Context {T : Type} {elt : Element T} {traits : IntrinsicTrait}.

(** *** Arrays indexed by size_t *)

(** Reading outside the array is undefined behaviour in the source; the
    model returns the default value. *)
Definition get (l : list T) (i : Z) : T := default zero (l !! Z.to_nat i).

(** Writing outside the array is undefined behaviour in the source; the
    model leaves the array as it is. *)
Definition set (l : list T) (i : Z) (x : T) : list T := <[Z.to_nat i := x]> l.

(** *** The parent container *)

(** Modelled from the spec: the dense vector primitive a view refers to
    (DynamicVector and the like) is not part of the header.  It has a
    logical size and a storage array whose length is its capacity: the
    elements past [vsize] are padding. *)
Record Vec : Type := mkVec { vsize : Z; vdata : list T }.

Definition empty_vec : Vec := mkVec 0 [].

Definition capacity_of (v : Vec) : Z := Z.of_nat (length (vdata v)).

(** [v[i]] *)
Definition vec_get (v : Vec) (i : Z) : T := get (vdata v) i.

(** [v[i] = x] *)
Definition vec_set (v : Vec) (i : Z) (x : T) : Vec :=
  mkVec (vsize v) (set (vdata v) i x).

(** An intrinsic register: [IT_size] lanes. *)
Definition IntrinsicType : Type := list T.

Definition lane (value : IntrinsicType) (j : Z) : T := get value j.

(** Modelled from the spec: [v.loadu(i)] of the parent container reads the
    [IT_size] consecutive elements from index [i] of its storage. *)
Definition vec_loadu (v : Vec) (i : Z) : IntrinsicType :=
  (fun j => vec_get v (i + j)) <$> seqZ 0 IT_size.

Fixpoint store_lanes (l : list T) (i : Z) (value : list T) : list T :=
  match value with
  | [] => l
  | x :: value' => store_lanes (set l i x) (i + 1) value'
  end.

(** Modelled from the spec: [v.storeu(i,value)] of the parent container
    writes the lanes of [value] to the consecutive storage elements from
    index [i]; [v.stream] stores the same values with a non-temporal
    hint. *)
Definition vec_storeu (v : Vec) (i : Z) (value : IntrinsicType) : Vec :=
  mkVec (vsize v) (store_lanes (vdata v) i value).

Definition vec_stream (v : Vec) (i : Z) (value : IntrinsicType) : Vec :=
  vec_storeu v i value.

(** *** The store of vector objects *)

Definition Heap : Type := addr -> Vec.

Definition heap_set (h : Heap) (a : addr) (i : Z) (x : T) : Heap :=
  <[a := vec_set (h a) i x]> h.

Definition heap_storeu (h : Heap) (a : addr) (i : Z) (value : IntrinsicType) : Heap :=
  <[a := vec_storeu (h a) i value]> h.

Definition heap_stream (h : Heap) (a : addr) (i : Z) (value : IntrinsicType) : Heap :=
  <[a := vec_stream (h a) i value]> h.

(** Operations that may throw: the store after the call, and either the
    exception or the result. *)
Definition M (A : Type) : Type := Heap -> Heap * (exn + A).

Definition ret {A : Type} (x : A) : M A := fun h => (h, inr x).
Definition throw {A : Type} (e : exn) : M A := fun h => (h, inl e).
Definition bind {A B : Type} (m : M A) (k : A -> M B) : M B :=
  fun h => match m h with
           | (h', inl e) => (h', inl e)
           | (h', inr x) => k x h'
           end.
Definition modify (f : Heap -> Heap) : M unit := fun h => (f h, inr tt).
Definition gets {A : Type} (f : Heap -> A) : M A := fun h => (h, inr (f h)).

(** *** The view *)

Record DenseSubvector : Type := mkDenseSubvector {
  vector_ : addr;
  offset_ : Z;
  size_ : Z;
  rest_ : Z;
  final_ : Z;
  aligned_ : bool
}.

(** [DenseSubvector( VT& vector, size_t index, size_t n )] *)
Definition DenseSubvector_ctor (h : Heap) (vector : addr) (index n : Z)
    : exn + DenseSubvector :=
  let rest := n mod IT_size in
  let final := ssub n rest in
  let aligned :=
    (index mod IT_size =? 0) &&
    ((sadd index n =? vsize (h vector)) || (n mod IT_size =? 0)) in
  if sadd index n >? vsize (h vector)
  then inl (invalid_argument "Invalid subvector specification")
  else inr (mkDenseSubvector vector index n rest final aligned).

(** [size()] *)
Definition size (sv : DenseSubvector) : Z := size_ sv.

(** [operator[]( size_t index ) const]: [vector_[offset_+index]]; the
    user assertion on [index] is compiled out. *)
Definition subscript (h : Heap) (sv : DenseSubvector) (index : Z) : T :=
  vec_get (h (vector_ sv)) (sadd (offset_ sv) index).

(** Writing through the reference [operator[]( size_t index )] returns. *)
Definition subscript_write (sv : DenseSubvector) (index : Z) (x : T) (h : Heap) : Heap :=
  heap_set h (vector_ sv) (sadd (offset_ sv) index) x.

(** [canAlias( const Other* alias )] *)
Definition canAlias (sv : DenseSubvector) (alias : addr) : bool :=
  Nat.eqb (vector_ sv) alias.

(** [isAliased( const Other* alias )] *)
Definition isAliased (sv : DenseSubvector) (alias : addr) : bool :=
  Nat.eqb (vector_ sv) alias.

(** [subvector( DenseVector<VT,TF>& dv, size_t index, size_t size )] *)
Definition subvector (h : Heap) (dv : addr) (index size : Z) : exn + DenseSubvector :=
  DenseSubvector_ctor h dv index size.

(** [subvector( const DenseSubvector<VT,TF>& dv, size_t index, size_t size )] *)
Definition subvector_of_subvector (h : Heap) (dv : DenseSubvector) (index size : Z)
    : exn + DenseSubvector :=
  DenseSubvector_ctor h (vector_ dv) (sadd (offset_ dv) index) size.

(** *** Views on cross products *)

(** Modelled from the spec: the cross product expressions
    (DVecDVecCrossExpr and its three siblings) are not part of the header.
    Such an expression has a size and yields its elements by index. *)
Record CrossExpr : Type := mkCrossExpr {
  cross_size : Z;
  cross_at : Z -> T
}.

(** The four specialisations [DenseSubvector< ...CrossExpr<VT1,VT2>, false >]
    have the same members and the same constructor. *)
Record CrossSubvector : Type := mkCrossSubvector {
  cvector_ : CrossExpr;
  coffset_ : Z;
  csize_ : Z
}.

(** [DenseSubvector( const CPE& vector, size_t index, size_t n )] *)
Definition CrossSubvector_ctor (vector : CrossExpr) (index n : Z)
    : exn + CrossSubvector :=
  inr (mkCrossSubvector vector index n).

Definition cross_subvector_size (sv : CrossSubvector) : Z := csize_ sv.

Definition cross_subscript (sv : CrossSubvector) (index : Z) : T :=
  cross_at (cvector_ sv) (sadd (coffset_ sv) index).

(** [subvector( const DenseVector<VT,TF>& dv, size_t index, size_t size )]
    for cross products. *)
Definition subvector_of_cross (dv : CrossExpr) (index size : Z) : exn + CrossSubvector :=
  CrossSubvector_ctor dv index size.

(** [subvector( const DenseSubvector<VT,TF>& dv, size_t index, size_t size )]
    at a cross product specialisation. *)
Definition subvector_of_cross_subvector (dv : CrossSubvector) (index size : Z)
    : exn + CrossSubvector :=
  CrossSubvector_ctor (cvector_ dv) (sadd (coffset_ dv) index) size.

(** *** Right-hand side operands *)

(** Modelled from the spec: a sparse vector (CompressedVector and the
    like) is not part of the header.  Its iterator yields the stored
    (index, value) elements in order. *)
Record SparseVector : Type := mkSparseVector {
  sp_size : Z;
  sp_elements : list (Z * T)
}.

(** The right-hand sides [Vector<VT2,TF>] of the assignment operators: a
    dense vector object of the store, a dense subvector, a vector object
    that lives outside the store (the local temporary [tmp] of the
    operators), or a sparse vector. *)
Inductive Operand : Type :=
| OpVector (a : addr)
| OpSubvector (sv : DenseSubvector)
| OpTemp (v : Vec)
| OpSparse (s : SparseVector).

(** [IsSparseVector<VT2>::value] *)
Definition IsSparseVector (rhs : Operand) : bool :=
  match rhs with OpSparse _ => true | _ => false end.

(** [(~rhs).size()] *)
Definition op_size (h : Heap) (rhs : Operand) : Z :=
  match rhs with
  | OpVector a => vsize (h a)
  | OpSubvector s => size s
  | OpTemp v => vsize v
  | OpSparse s => sp_size s
  end.

(** Modelled from the spec: the subscript of a sparse vector is the stored
    value at the index, or the default value. *)
Definition sparse_at (s : SparseVector) (i : Z) : T :=
  match List.find (fun e => fst e =? i) (sp_elements s) with
  | Some e => snd e
  | None => zero
  end.

(** [(~rhs)[i]] *)
Definition op_at (h : Heap) (rhs : Operand) (i : Z) : T :=
  match rhs with
  | OpVector a => vec_get (h a) i
  | OpSubvector s => subscript h s i
  | OpTemp v => vec_get v i
  | OpSparse s => sparse_at s i
  end.

(** [(~rhs).canAlias( alias )].  Modelled from the spec for the vector
    objects: a vector primitive can alias with its own address only, and
    the local temporary and a sparse vector are objects different from
    every dense vector of the store. *)
Definition op_canAlias (rhs : Operand) (alias : addr) : bool :=
  match rhs with
  | OpVector a => Nat.eqb a alias
  | OpSubvector s => canAlias s alias
  | OpTemp _ => false
  | OpSparse _ => false
  end.

(** [(~rhs).isAliased( alias )] *)
Definition op_isAliased (rhs : Operand) (alias : addr) : bool :=
  match rhs with
  | OpVector a => Nat.eqb a alias
  | OpSubvector s => isAliased s alias
  | OpTemp _ => false
  | OpSparse _ => false
  end.

(** [const typename VT2::ResultType tmp( ~rhs )]: the evaluation of the
    right-hand side into a vector of its own. *)
Definition evaluate (h : Heap) (rhs : Operand) : Operand :=
  match rhs with
  | OpSparse s => OpSparse s
  | _ => OpTemp (mkVec (op_size h rhs) (op_at h rhs <$> seqZ 0 (op_size h rhs)))
  end.

(** *** Intrinsic access to the view *)

(** [loadu( size_t index ) const]; the lanes the partial load leaves
    uninitialised hold the default value in the model. *)
Definition loadu (h : Heap) (sv : DenseSubvector) (index : Z) : IntrinsicType :=
  if aligned_ sv || negb (index =? final_ sv)
  then vec_loadu (h (vector_ sv)) (sadd (offset_ sv) index)
  else (fun j => if j <? rest_ sv
                 then vec_get (h (vector_ sv)) (sadd (sadd (offset_ sv) index) j)
                 else zero) <$> seqZ 0 IT_size.

(** [load( size_t index ) const] *)
Definition load (h : Heap) (sv : DenseSubvector) (index : Z) : IntrinsicType :=
  loadu h sv index.

(** [storeu( size_t index, const IntrinsicType& value )] *)
Definition storeu (sv : DenseSubvector) (index : Z) (value : IntrinsicType) (h : Heap) : Heap :=
  if aligned_ sv || negb (index =? final_ sv)
  then heap_storeu h (vector_ sv) (sadd (offset_ sv) index) value
  else for_loop 0 (rest_ sv) 1
         (fun j h => heap_set h (vector_ sv) (sadd (sadd (offset_ sv) index) j) (lane value j)) h.

(** [store( size_t index, const IntrinsicType& value )] *)
Definition store (sv : DenseSubvector) (index : Z) (value : IntrinsicType) (h : Heap) : Heap :=
  storeu sv index value h.

(** [stream( size_t index, const IntrinsicType& value )] *)
Definition stream (sv : DenseSubvector) (index : Z) (value : IntrinsicType) (h : Heap) : Heap :=
  storeu sv index value h.

(** [it.load()] of the iterator [(~rhs).begin()] advanced by [it]
    elements.  The iterator of a subvector is the iterator of its parent
    from [offset_] on and loads with the parent's [loadu]
    (SubvectorIterator::load). *)
Definition op_it_load (h : Heap) (rhs : Operand) (it : Z) : IntrinsicType :=
  match rhs with
  | OpVector a => vec_loadu (h a) it
  | OpSubvector s => vec_loadu (h (vector_ s)) (sadd (offset_ s) it)
  | OpTemp v => vec_loadu v it
  | OpSparse _ => []
  end.

(** [(~rhs).load(i)] *)
Definition op_load (h : Heap) (rhs : Operand) (i : Z) : IntrinsicType :=
  match rhs with
  | OpVector a => vec_loadu (h a) i
  | OpSubvector s => load h s i
  | OpTemp v => vec_loadu v i
  | OpSparse _ => []
  end.

(** *** Utility functions *)

(** [operator=( const ElementType& rhs )] *)
Definition operator_assign_value (sv : DenseSubvector) (rhs : T) (h : Heap) : Heap :=
  let iend := sadd (offset_ sv) (size_ sv) in
  for_loop (offset_ sv) iend 1 (fun i h => heap_set h (vector_ sv) i rhs) h.

(** [reset()] *)
Definition reset (sv : DenseSubvector) (h : Heap) : Heap :=
  let iend := sadd (offset_ sv) (size_ sv) in
  for_loop (offset_ sv) iend 1 (fun i h => heap_set h (vector_ sv) i zero) h.

(** [scale( const Other& scalar )] *)
Definition scale (sv : DenseSubvector) (scalar : T) (h : Heap) : Heap :=
  let iend := sadd (offset_ sv) (size_ sv) in
  for_loop (offset_ sv) iend 1
    (fun i h => heap_set h (vector_ sv) i (mul (vec_get (h (vector_ sv)) i) scalar)) h.

(** *** The assignment kernels *)

(** [vector_[i] op= (~rhs)[k]]; [f] is the second argument for plain
    assignment. *)
Definition update_element (f : T -> T -> T) (sv : DenseSubvector) (rhs : Operand)
    (i k : Z) (h : Heap) : Heap :=
  heap_set h (vector_ sv) i (f (vec_get (h (vector_ sv)) i) (op_at h rhs k)).

(** The four default kernels for a dense right-hand side differ in the
    operator only. *)
Definition dense_default (f : T -> T -> T) (sv : DenseSubvector) (rhs : Operand)
    (h : Heap) : Heap :=
  let iend := Z.land (size sv) (sneg 2) in
  let h1 :=
    for_loop 0 iend 2
      (fun i h =>
         let h := update_element f sv rhs (sadd i (offset_ sv)) i h in
         update_element f sv rhs (sadd (sadd i (offset_ sv)) 1) (sadd i 1) h) h in
  if iend <? size sv
  then update_element f sv rhs (sadd iend (offset_ sv)) iend h1
  else h1.

Definition assign_default := dense_default (fun _ r => r).
Definition addAssign_default := dense_default add.
Definition subAssign_default := dense_default sub.
Definition multAssign_default := dense_default mul.

(** The two loops of the intrinsic kernels: four registers per iteration
    up to [iend], then one register per iteration through the view's
    [storeu].  [value_at h i it] is the register stored at index [i] when
    the right-hand side iterator stands at [it]. *)
Definition intrinsic_loops (value_at : Heap -> Z -> Z -> IntrinsicType)
    (sv : DenseSubvector) (h : Heap) : Heap :=
  let iend := Z.land (size_ sv) (wrap (- IT_size * 4)) in
  let s1 :=
    for_loop 0 iend (smul IT_size 4)
      (fun i '(h, it) =>
         let h := heap_storeu h (vector_ sv) (sadd (offset_ sv) i) (value_at h i it) in
         let it := sadd it IT_size in
         let h := heap_storeu h (vector_ sv) (sadd (sadd (offset_ sv) i) IT_size)
                    (value_at h (sadd i IT_size) it) in
         let it := sadd it IT_size in
         let h := heap_storeu h (vector_ sv) (sadd (sadd (offset_ sv) i) (smul IT_size 2))
                    (value_at h (sadd i (smul IT_size 2)) it) in
         let it := sadd it IT_size in
         let h := heap_storeu h (vector_ sv) (sadd (sadd (offset_ sv) i) (smul IT_size 3))
                    (value_at h (sadd i (smul IT_size 3)) it) in
         let it := sadd it IT_size in
         (h, it))
      (h, 0) in
  fst (for_loop iend (size_ sv) IT_size
         (fun i '(h, it) => (storeu sv i (value_at h i it) h, sadd it IT_size)) s1).

(** [assign( const DenseVector<VT2,TF>& rhs )], intrinsic optimised. *)
Definition assign_vectorized (sv : DenseSubvector) (rhs : Operand) (h : Heap) : Heap :=
  if useStreaming && aligned_ sv &&
     (size_ sv >? cacheSize / smul sizeof_ElementType 3) &&
     negb (op_isAliased rhs (vector_ sv))
  then
    for_loop 0 (size sv) IT_size
      (fun i h => heap_stream h (vector_ sv) (sadd (offset_ sv) i) (op_load h rhs i)) h
  else
    intrinsic_loops (fun h _ it => op_it_load h rhs it) sv h.

(** [load(i) op it.load()] of the compound intrinsic kernels. *)
Definition compound_value (f : T -> T -> T) (sv : DenseSubvector) (rhs : Operand)
    (h : Heap) (i it : Z) : IntrinsicType :=
  zip_with f (load h sv i) (op_it_load h rhs it).

Definition addAssign_vectorized (sv : DenseSubvector) (rhs : Operand) : Heap -> Heap :=
  intrinsic_loops (compound_value add sv rhs) sv.
Definition subAssign_vectorized (sv : DenseSubvector) (rhs : Operand) : Heap -> Heap :=
  intrinsic_loops (compound_value sub sv rhs) sv.
Definition multAssign_vectorized (sv : DenseSubvector) (rhs : Operand) : Heap -> Heap :=
  intrinsic_loops (compound_value mul sv rhs) sv.

(** The kernels for a sparse right-hand side walk its elements. *)
Definition sparse_loop (f : Z -> T -> T -> T) (sv : DenseSubvector) (s : SparseVector)
    (h : Heap) : Heap :=
  fold_left
    (fun h e =>
       let i := sadd (fst e) (offset_ sv) in
       heap_set h (vector_ sv) i (f (fst e) (vec_get (h (vector_ sv)) i) (snd e)))
    (sp_elements s) h.

Definition assign_sparse := sparse_loop (fun _ _ v => v).
Definition addAssign_sparse := sparse_loop (fun _ x v => add x v).
Definition subAssign_sparse := sparse_loop (fun _ x v => sub x v).

(** [multAssign( const SparseVector<VT2,TF>& rhs )] *)
Definition multAssign_sparse (sv : DenseSubvector) (s : SparseVector) (h : Heap) : Heap :=
  let tmp := mkVec (size sv) (subscript h sv <$> seqZ 0 (size sv)) in
  let h := reset sv h in
  sparse_loop (fun i _ v => mul (vec_get tmp i) v) sv s h.

(** *** Kernel selection *)

(** The helper structures [VectorizedAssign<VT2>] and its siblings; every
    vector of the model has the element type [T] and the [vectorizable]
    flag of the trait. *)
Definition VectorizedAssign : bool := vectorizable && vectorizable.
Definition VectorizedAddAssign : bool := vectorizable && vectorizable && IT_addition.
Definition VectorizedSubAssign : bool := vectorizable && vectorizable && IT_subtraction.
Definition VectorizedMultAssign : bool := vectorizable && vectorizable && IT_multiplication.

(** [assign( *this, rhs )] and its siblings: the overload of the member
    function the right-hand side selects. *)
Definition assign (sv : DenseSubvector) (rhs : Operand) (h : Heap) : Heap :=
  match rhs with
  | OpSparse s => assign_sparse sv s h
  | _ => if VectorizedAssign then assign_vectorized sv rhs h else assign_default sv rhs h
  end.

Definition addAssign (sv : DenseSubvector) (rhs : Operand) (h : Heap) : Heap :=
  match rhs with
  | OpSparse s => addAssign_sparse sv s h
  | _ => if VectorizedAddAssign then addAssign_vectorized sv rhs h
         else addAssign_default sv rhs h
  end.

Definition subAssign (sv : DenseSubvector) (rhs : Operand) (h : Heap) : Heap :=
  match rhs with
  | OpSparse s => subAssign_sparse sv s h
  | _ => if VectorizedSubAssign then subAssign_vectorized sv rhs h
         else subAssign_default sv rhs h
  end.

Definition multAssign (sv : DenseSubvector) (rhs : Operand) (h : Heap) : Heap :=
  match rhs with
  | OpSparse s => multAssign_sparse sv s h
  | _ => if VectorizedMultAssign then multAssign_vectorized sv rhs h
         else multAssign_default sv rhs h
  end.

(** *** Assignment operators *)

Definition sizes_do_not_match : exn := invalid_argument "Vector sizes do not match".

(** [operator=( const DenseSubvector& rhs )].  The first disjunct of the
    guard, [&rhs == this], implies the second one: one object has one
    parent and one offset. *)
Definition operator_assign_copy (this rhs : DenseSubvector) : M unit :=
  if Nat.eqb (vector_ this) (vector_ rhs) && (offset_ this =? offset_ rhs)
  then ret tt
  else if negb (size this =? size rhs)
  then throw (invalid_argument "Subvector sizes do not match")
  else if canAlias rhs (vector_ this)
  then bind (gets (fun h => evaluate h (OpSubvector rhs)))
            (fun tmp => modify (assign this tmp))
  else modify (assign this (OpSubvector rhs)).

(** [operator=( const Vector<VT2,TF>& rhs )] *)
Definition operator_assign (this : DenseSubvector) (rhs : Operand) : M unit :=
  bind (gets (fun h => op_size h rhs)) (fun n =>
  if negb (size this =? n)
  then throw sizes_do_not_match
  else if op_canAlias rhs (vector_ this)
  then bind (gets (fun h => evaluate h rhs)) (fun tmp => modify (assign this tmp))
  else bind (if IsSparseVector rhs then modify (reset this) else ret tt)
            (fun _ => modify (assign this rhs))).

(** [operator+=( const Vector<VT2,TF>& rhs )] *)
Definition operator_add_assign (this : DenseSubvector) (rhs : Operand) : M unit :=
  bind (gets (fun h => op_size h rhs)) (fun n =>
  if negb (size this =? n)
  then throw sizes_do_not_match
  else if op_canAlias rhs (vector_ this)
  then bind (gets (fun h => evaluate h rhs)) (fun tmp => modify (addAssign this tmp))
  else modify (addAssign this rhs)).

(** [operator-=( const Vector<VT2,TF>& rhs )] *)
Definition operator_sub_assign (this : DenseSubvector) (rhs : Operand) : M unit :=
  bind (gets (fun h => op_size h rhs)) (fun n =>
  if negb (size this =? n)
  then throw sizes_do_not_match
  else if op_canAlias rhs (vector_ this)
  then bind (gets (fun h => evaluate h rhs)) (fun tmp => modify (subAssign this tmp))
  else modify (subAssign this rhs)).

(** [operator*=( const Vector<VT2,TF>& rhs )] *)
Definition operator_mult_assign (this : DenseSubvector) (rhs : Operand) : M unit :=
  bind (gets (fun h => op_size h rhs)) (fun n =>
  if negb (size this =? n)
  then throw sizes_do_not_match
  else if op_canAlias rhs (vector_ this) || IsSparseVector rhs
  then bind (gets (fun h => evaluate h rhs)) (fun tmp => modify (multAssign this tmp))
  else modify (multAssign this rhs)).

End Model.

(** ** Capacity, default state and iterators of the view *)

(** [isDefault( v )] of an element is the shim of
    blaze/math/shims/IsDefault.h, which the header includes; it is a
    parameter of the model. *)
Class DefaultShim (T : Type) := {
  isDefault_value : T -> bool
}.

(** Modelled from the spec: the iterator of the parent container
    ([VT::Iterator], [VT::ConstIterator]) and the pointer [data()] returns
    are not part of the header.  Such an iterator is a pointer into the
    storage of one vector: the vector and the position of the element.
    Adding a [size_t] is pointer arithmetic and does not wrap. *)
Record VecIterator : Type := mkVecIterator {
  it_vector : addr;
  it_pos : Z
}.

(** [SubvectorIterator<IteratorType>]: its only member is the iterator of
    the parent. *)
Record SubvectorIterator : Type := mkSubvectorIterator {
  iterator_ : VecIterator
}.

Section Utilities.
Context {T : Type} {elt : Element T} {shim : DefaultShim T} {traits : IntrinsicTrait}.

(** [vector_.begin()], [vector_.cbegin()] and [vector_.data()] *)
Definition vec_begin (a : addr) : VecIterator := mkVecIterator a 0.

(** [iterator + inc] and [iterator - dec] of the parent's iterator *)
Definition vec_it_plus (it : VecIterator) (inc : Z) : VecIterator :=
  mkVecIterator (it_vector it) (it_pos it + inc).
Definition vec_it_minus (it : VecIterator) (dec : Z) : VecIterator :=
  mkVecIterator (it_vector it) (it_pos it - dec).

(** [*iterator] and [iterator.loadu()] of the parent's iterator *)
Definition vec_it_deref (h : @Heap T) (it : VecIterator) : T :=
  vec_get (h (it_vector it)) (it_pos it).
Definition vec_it_loadu (h : @Heap T) (it : VecIterator) : @IntrinsicType T :=
  vec_loadu (h (it_vector it)) (it_pos it).

(** [iterator == rhs] of the parent's iterator *)
Definition vec_it_eqb (a b : VecIterator) : bool :=
  Nat.eqb (it_vector a) (it_vector b) && (it_pos a =? it_pos b).

(** [SubvectorIterator::operator+=( size_t inc )] *)
Definition it_add_assign (it : SubvectorIterator) (inc : Z) : SubvectorIterator :=
  mkSubvectorIterator (vec_it_plus (iterator_ it) inc).

(** [SubvectorIterator::operator-=( size_t dec )] *)
Definition it_sub_assign (it : SubvectorIterator) (dec : Z) : SubvectorIterator :=
  mkSubvectorIterator (vec_it_minus (iterator_ it) dec).

(** [SubvectorIterator::operator++()] *)
Definition it_pre_increment (it : SubvectorIterator) : SubvectorIterator :=
  mkSubvectorIterator (vec_it_plus (iterator_ it) 1).

(** [SubvectorIterator::operator++( int )]: the iterator returned and the
    iterator afterwards. *)
Definition it_post_increment (it : SubvectorIterator)
    : SubvectorIterator * SubvectorIterator :=
  (mkSubvectorIterator (iterator_ it), mkSubvectorIterator (vec_it_plus (iterator_ it) 1)).

(** [SubvectorIterator::operator--()] *)
Definition it_pre_decrement (it : SubvectorIterator) : SubvectorIterator :=
  mkSubvectorIterator (vec_it_minus (iterator_ it) 1).

(** [SubvectorIterator::operator--( int )]: the iterator returned and the
    iterator afterwards. *)
Definition it_post_decrement (it : SubvectorIterator)
    : SubvectorIterator * SubvectorIterator :=
  (mkSubvectorIterator (iterator_ it), mkSubvectorIterator (vec_it_minus (iterator_ it) 1)).

(** [SubvectorIterator::operator*()] *)
Definition it_deref (h : @Heap T) (it : SubvectorIterator) : T :=
  vec_it_deref h (iterator_ it).

(** [SubvectorIterator::load()] and [SubvectorIterator::loadu()]: both are
    [iterator_.loadu()]. *)
Definition it_load (h : @Heap T) (it : SubvectorIterator) : @IntrinsicType T :=
  vec_it_loadu h (iterator_ it).
Definition it_loadu (h : @Heap T) (it : SubvectorIterator) : @IntrinsicType T :=
  vec_it_loadu h (iterator_ it).

(** The comparison operators of [SubvectorIterator] *)
Definition it_eqb (a b : SubvectorIterator) : bool :=
  vec_it_eqb (iterator_ a) (iterator_ b).
Definition it_neqb (a b : SubvectorIterator) : bool :=
  negb (vec_it_eqb (iterator_ a) (iterator_ b)).
Definition it_ltb (a b : SubvectorIterator) : bool :=
  it_pos (iterator_ a) <? it_pos (iterator_ b).
Definition it_gtb (a b : SubvectorIterator) : bool :=
  it_pos (iterator_ a) >? it_pos (iterator_ b).
Definition it_leb (a b : SubvectorIterator) : bool :=
  it_pos (iterator_ a) <=? it_pos (iterator_ b).
Definition it_geb (a b : SubvectorIterator) : bool :=
  it_pos (iterator_ a) >=? it_pos (iterator_ b).

(** [SubvectorIterator::operator-( const SubvectorIterator& rhs )] *)
Definition it_difference (a b : SubvectorIterator) : Z :=
  it_pos (iterator_ a) - it_pos (iterator_ b).

(** [operator+( const SubvectorIterator& it, size_t inc )] and
    [operator+( size_t inc, const SubvectorIterator& it )] *)
Definition it_plus (it : SubvectorIterator) (inc : Z) : SubvectorIterator :=
  mkSubvectorIterator (vec_it_plus (iterator_ it) inc).
Definition plus_it (inc : Z) (it : SubvectorIterator) : SubvectorIterator :=
  mkSubvectorIterator (vec_it_plus (iterator_ it) inc).

(** [operator-( size_t dec, const SubvectorIterator& it )] *)
Definition minus_it (dec : Z) (it : SubvectorIterator) : SubvectorIterator :=
  mkSubvectorIterator (vec_it_minus (iterator_ it) dec).

(** [data()] *)
Definition data (sv : DenseSubvector) : VecIterator :=
  vec_it_plus (vec_begin (vector_ sv)) (offset_ sv).

(** [begin()] and [cbegin()] *)
Definition begin (sv : DenseSubvector) : SubvectorIterator :=
  mkSubvectorIterator (vec_it_plus (vec_begin (vector_ sv)) (offset_ sv)).
Definition cbegin (sv : DenseSubvector) : SubvectorIterator :=
  mkSubvectorIterator (vec_it_plus (vec_begin (vector_ sv)) (offset_ sv)).

(** [end()] and [cend()] *)
Definition end_ (sv : DenseSubvector) : SubvectorIterator :=
  mkSubvectorIterator
    (vec_it_plus (vec_it_plus (vec_begin (vector_ sv)) (offset_ sv)) (size_ sv)).
Definition cend (sv : DenseSubvector) : SubvectorIterator :=
  mkSubvectorIterator
    (vec_it_plus (vec_it_plus (vec_begin (vector_ sv)) (offset_ sv)) (size_ sv)).

(** [capacity()]; the capacity of the parent is the length of its
    storage. *)
Definition capacity (h : @Heap T) (sv : DenseSubvector) : Z :=
  ssub (capacity_of (h (vector_ sv))) (offset_ sv).

(** [nonZeros()] *)
Definition nonZeros (h : @Heap T) (sv : DenseSubvector) : Z :=
  let iend := sadd (offset_ sv) (size_ sv) in
  for_loop (offset_ sv) iend 1
    (fun i nonzeros =>
       if negb (isDefault_value (vec_get (h (vector_ sv)) i))
       then sadd nonzeros 1
       else nonzeros) 0.

(** [reset( DenseSubvector<VT,TF>& dv )] *)
Definition reset_subvector (dv : DenseSubvector) (h : @Heap T) : @Heap T := reset dv h.

(** [clear( DenseSubvector<VT,TF>& dv )] *)
Definition clear (dv : DenseSubvector) (h : @Heap T) : @Heap T := reset dv h.

(** The loop of [isDefault( const DenseSubvector<VT,TF>& dv )] from index
    [i] on: it returns at the first element that is not in default
    state. *)
Fixpoint isDefault_from (fuel : nat) (h : @Heap T) (dv : DenseSubvector) (i : Z) : bool :=
  match fuel with
  | O => true
  | S fuel' =>
      if i <? size dv
      then if negb (isDefault_value (subscript h dv i))
           then false
           else isDefault_from fuel' h dv (sadd i 1)
      else true
  end.

(** [isDefault( const DenseSubvector<VT,TF>& dv )]; the loop makes at most
    [dv.size()] iterations. *)
Definition isDefault (h : @Heap T) (dv : DenseSubvector) : bool :=
  isDefault_from (Z.to_nat (size dv)) h dv 0.

End Utilities.

(** ** Concrete instances, for running the model *)

#[export] Instance Z_Element : Element Z :=
  {| zero := 0; add := Z.add; sub := Z.sub; mul := Z.mul |}.

(** An integer is in default state when it is 0. *)
#[export] Instance Z_DefaultShim : DefaultShim Z :=
  {| isDefault_value := fun x => x =? 0 |}.

(** A non-vectorizable element type: one element per intrinsic register. *)
Definition scalar_traits : IntrinsicTrait :=
  {| IT_size := 1; vectorizable := false; IT_addition := false;
     IT_subtraction := false; IT_multiplication := false;
     sizeof_ElementType := 8; cacheSize := 3145728; useStreaming := true |}.

(** A vectorizable element type with four elements per intrinsic register. *)
Definition simd4_traits : IntrinsicTrait :=
  {| IT_size := 4; vectorizable := true; IT_addition := true;
     IT_subtraction := true; IT_multiplication := true;
     sizeof_ElementType := 4; cacheSize := 3145728; useStreaming := true |}.

(** The vectorizable element type with a cache so small that an aligned view
    of more than one element takes the streaming branch. *)
Definition streaming_traits : IntrinsicTrait :=
  {| IT_size := 4; vectorizable := true; IT_addition := true;
     IT_subtraction := true; IT_multiplication := true;
     sizeof_ElementType := 4; cacheSize := 12; useStreaming := true |}.

(** The store with the single vector [v] at address 0. *)
Definition single_heap (v : @Vec Z) : @Heap Z := <[0%nat := v]> (fun _ => empty_vec).

(** The store with [v] at address 0 and [w] at address 1. *)
Definition two_heap (v w : @Vec Z) : @Heap Z :=
  <[1%nat := w]> (<[0%nat := v]> (fun _ => empty_vec)).

(** A vector without padding. *)
Definition vec_of (l : list Z) : @Vec Z := mkVec (Z.of_nat (length l)) l.

(** A vector whose storage is padded with zeros up to capacity [cap]. *)
Definition padded_vec_of (l : list Z) (cap : nat) : @Vec Z :=
  mkVec (Z.of_nat (length l)) (l ++ replicate (cap - length l) 0).

(** The parent of the examples: the ten integers 0 to 9, without padding
    and with padding up to a capacity of twelve. *)
Definition parent10 : @Vec Z := vec_of [0; 1; 2; 3; 4; 5; 6; 7; 8; 9].
Definition padded10 : @Vec Z := padded_vec_of [0; 1; 2; 3; 4; 5; 6; 7; 8; 9] 12.

(** A cross product expression: three elements. *)
Definition cross3 : @CrossExpr Z := mkCrossExpr 3 (fun i => i).

(** The view [subvector( v, index, n )] with its cached members as the
    constructor computes them, for stating the examples. *)
Definition view_of {T : Type} {traits : IntrinsicTrait} (h : @Heap T) (a : addr)
    (index n : Z) : DenseSubvector :=
  match subvector h a index n with
  | inr sv => sv
  | inl _ => mkDenseSubvector a index n 0 0 false
  end.

(** The elements of vector [a] of a store, without the padding. *)
Definition contents {T : Type} {elt : Element T} (h : @Heap T) (a : addr) : list T :=
  vec_get (h a) <$> seqZ 0 (vsize (h a)).

(** ** Specification vocabulary *)

Section Specification.
Context {T : Type} {elt : Element T} {traits : IntrinsicTrait}.

(** The number of elements of an intrinsic register is a power of two. *)
Definition wf_traits : Prop := exists k, 0 <= k <= 61 /\ IT_size = 2 ^ k.

(** A vector object: its size is within its capacity, and its storage fits
    the address space. *)
Definition wf_vec (v : @Vec T) : Prop :=
  0 <= vsize v <= capacity_of v /\ capacity_of v <= 2 ^ 63.

(** [sv] is the view the constructor builds over the store [h], and it
    lies within its parent. *)
Definition wf_view (h : @Heap T) (sv : DenseSubvector) : Prop :=
  0 <= offset_ sv /\ 0 <= size_ sv /\
  offset_ sv + size_ sv <= vsize (h (vector_ sv)) /\
  wf_vec (h (vector_ sv)) /\
  DenseSubvector_ctor h (vector_ sv) (offset_ sv) (size_ sv) = inr sv.

(** A sparse vector stores each index at most once, within its size. *)
Definition wf_sparse (s : @SparseVector T) : Prop :=
  0 <= sp_size s /\
  (forall e, e ∈ sp_elements s -> 0 <= fst e < sp_size s) /\
  NoDup (fst <$> sp_elements s).

Definition wf_operand (h : @Heap T) (rhs : @Operand T) : Prop :=
  match rhs with
  | OpVector a => wf_vec (h a)
  | OpSubvector s => wf_view h s
  | OpTemp v => wf_vec v
  | OpSparse s => wf_sparse s
  end.

(** [progress R sv h i h']: the store [h'] is [h] after the first [i]
    elements of the view have been written, element [k] with a new value
    that [R k] relates to its old value.  Nothing else below the size of a
    vector has changed. *)
Definition progress (R : Z -> T -> T -> Prop) (sv : DenseSubvector) (h : @Heap T) (i : Z)
    (h' : @Heap T) : Prop :=
  (forall b, b <> vector_ sv -> h' b = h b) /\
  vsize (h' (vector_ sv)) = vsize (h (vector_ sv)) /\
  length (vdata (h' (vector_ sv))) = length (vdata (h (vector_ sv))) /\
  (forall k, 0 <= k < Z.min i (size_ sv) ->
     R k (vec_get (h (vector_ sv)) (offset_ sv + k))
         (vec_get (h' (vector_ sv)) (offset_ sv + k))) /\
  (forall k, 0 <= k < vsize (h (vector_ sv)) ->
     ~ (offset_ sv <= k < offset_ sv + Z.min i (size_ sv)) ->
     vec_get (h' (vector_ sv)) k = vec_get (h (vector_ sv)) k).

(** The new value is [g k] of the old one. *)
Definition becomes (g : Z -> T -> T) : Z -> T -> T -> Prop :=
  fun k old new => new = g k old.

(** The new value is any value. *)
Definition any_value : Z -> T -> T -> Prop := fun _ _ _ => True.

(** What a kernel leaves behind: every element of the view replaced,
    element [k] by [g k] of its old value. *)
Definition updated (g : Z -> T -> T) (sv : DenseSubvector) (h h' : @Heap T) : Prop :=
  progress (becomes g) sv h (size_ sv) h'.

(** What a kernel leaves behind when the values do not matter. *)
Definition written (sv : DenseSubvector) (h h' : @Heap T) : Prop :=
  progress any_value sv h (size_ sv) h'.

(** The frame of a mutation of the view [sv]: every element of every
    vector that is not an element of the view keeps its value, and no
    vector changes its size. *)
Definition frame (sv : DenseSubvector) (h h' : @Heap T) : Prop :=
  (forall b, vsize (h' b) = vsize (h b)) /\
  (forall b k, 0 <= k < vsize (h b) ->
     ~ (b = vector_ sv /\ offset_ sv <= k < offset_ sv + size_ sv) ->
     vec_get (h' b) k = vec_get (h b) k).

(** Two stores with the same vectors: the same sizes and the same
    elements below the sizes. *)
Definition same_vectors (h1 h2 : @Heap T) : Prop :=
  forall a, vsize (h1 a) = vsize (h2 a) /\
    (forall k, 0 <= k < vsize (h1 a) -> vec_get (h1 a) k = vec_get (h2 a) k).

(** What the walk over the elements of a sparse vector leaves at index
    [k] of the view. *)
Definition sparse_result (f : Z -> T -> T -> T) (es : list (Z * T)) (g : Z -> T -> T)
    (k : Z) (old : T) : T :=
  match List.find (fun e => fst e =? k) es with
  | Some e => f k old (snd e)
  | None => g k old
  end.

(** The value a compound assignment with the operator [f] leaves at index
    [k] of the view: a dense right-hand side combines every element, a
    sparse one the elements it stores. *)
Definition combined (f : T -> T -> T) (h : @Heap T) (rhs : @Operand T) : Z -> T -> T :=
  match rhs with
  | OpSparse s => sparse_result (fun _ old x => f old x) (sp_elements s) (fun _ old => old)
  | _ => fun k old => f old (op_at h rhs k)
  end.

(** The value a multiplication assignment leaves at index [k] of the view:
    what a sparse right-hand side does not store becomes the default
    value. *)
Definition multiplied (h : @Heap T) (rhs : @Operand T) : Z -> T -> T :=
  match rhs with
  | OpSparse s => sparse_result (fun _ old x => mul old x) (sp_elements s) (fun _ _ => zero)
  | _ => fun k old => mul old (op_at h rhs k)
  end.

(** The reference of the aliasing property: the source is copied element
    by element into a list of its own, and the copy is then written
    element by element through the subscript of the view. *)
Definition naive_copy (h : @Heap T) (rhs : @Operand T) : list T :=
  op_at h rhs <$> seqZ 0 (op_size h rhs).

Definition naive_write (sv : DenseSubvector) (src : list T) (h : @Heap T) : @Heap T :=
  fold_left (fun h i => subscript_write sv i (get src i) h) (seqZ 0 (size sv)) h.

Definition reference_assign (sv : DenseSubvector) (rhs : @Operand T) (h : @Heap T)
    : @Heap T :=
  naive_write sv (naive_copy h rhs) h.

End Specification.

(** An operator on the view [sv] returns normally and keeps the vector
    objects: every vector other than the parent is as it was, the parent
    has its size and its capacity, and [sv] is still a view of the
    store. *)
Definition returns_keeping_objects {T : Type} {elt : Element T} {traits : IntrinsicTrait}
    (sv : DenseSubvector) (h : @Heap T) (run : @Heap T * (exn + unit)) : Prop :=
  exists h', run = (h', inr tt) /\
    (forall b, b <> vector_ sv -> h' b = h b) /\
    vsize (h' (vector_ sv)) = vsize (h (vector_ sv)) /\
    capacity_of (h' (vector_ sv)) = capacity_of (h (vector_ sv)) /\
    wf_view h' sv.

(** The number of elements among the first [k] of a view that are not in
    default state. *)
Definition count_non_default {T : Type} {elt : Element T} {shim : DefaultShim T}
    (h : @Heap T) (sv : DenseSubvector) (k : Z) : Z :=
  Z.of_nat (length (List.filter (fun x => negb (isDefault_value x))
                      (subscript h sv <$> seqZ 0 k))).

(** ** Facts about size_t arithmetic *)

Lemma size_t_modulus_eq : size_t_modulus = 18446744073709551616.
Proof. reflexivity. Qed.

Lemma size_t_modulus_pos : 0 < size_t_modulus.
Proof. rewrite size_t_modulus_eq. lia. Qed.

Lemma wrap_small z : 0 <= z < 18446744073709551616 -> wrap z = z.
Proof. intros Hz. unfold wrap. apply Z.mod_small. rewrite size_t_modulus_eq. exact Hz. Qed.

Lemma wrap_range z : 0 <= wrap z < 18446744073709551616.
Proof.
  unfold wrap. rewrite <- size_t_modulus_eq. apply Z.mod_pos_bound. exact size_t_modulus_pos.
Qed.

Lemma sadd_small a b : 0 <= a + b < 18446744073709551616 -> sadd a b = a + b.
Proof. apply wrap_small. Qed.

Lemma ssub_small a b : 0 <= a - b < 18446744073709551616 -> ssub a b = a - b.
Proof. apply wrap_small. Qed.

Lemma smul_small a b : 0 <= a * b < 18446744073709551616 -> smul a b = a * b.
Proof. apply wrap_small. Qed.

(** Masking with [size_t(-2^k)] rounds down to a multiple of [2^k]. *)
Lemma land_wrap_neg_pow2 n k :
  0 <= n < 18446744073709551616 -> 0 <= k < 64 ->
  Z.land n (wrap (- 2 ^ k)) = n - n mod 2 ^ k.
Proof.
  intros Hn Hk. rewrite <- size_t_modulus_eq in Hn. change 64 with size_t_bits in Hk.
  unfold wrap, size_t_modulus in *.
  rewrite <- Z.land_ones by (unfold size_t_bits; lia).
  rewrite Z.land_assoc, (Z.land_comm n), <- Z.land_assoc.
  rewrite (Z.land_ones n) by (unfold size_t_bits; lia).
  rewrite (Z.mod_small n) by lia.
  replace (- 2 ^ k) with (Z.lnot (Z.ones k)).
  2:{ rewrite Z.ones_equiv. unfold Z.lnot. lia. }
  rewrite Z.land_comm, <- Z.ldiff_land.
  rewrite Z.ldiff_ones_r by lia.
  rewrite Z.shiftl_mul_pow2, Z.shiftr_div_pow2 by lia.
  pose proof (Z.pow_pos_nonneg 2 k). 
  rewrite (Z.mod_eq n (2 ^ k)) by lia. lia.
Qed.

Lemma land_sneg_2 n : 0 <= n < 18446744073709551616 -> Z.land n (sneg 2) = n - n mod 2.
Proof.
  intros Hn. unfold sneg. change (- (2)) with (- 2 ^ 1).
  rewrite land_wrap_neg_pow2; [reflexivity | exact Hn | lia].
Qed.

(** [lia] with the equations of division and remainder. *)
Ltac mlia := Z.to_euclidean_division_equations; lia.

(** ** The loop rule *)

(** A loop with a positive step whose index cannot wrap runs to the first
    index at or past [iend] and carries an invariant there. *)
Lemma for_loop_fuel_rule {St : Type} (Inv : Z -> St -> Prop) iend step body :
  0 < step -> iend + step <= 18446744073709551616 ->
  (forall i s, 0 <= i < iend -> Inv i s -> Inv (i + step) (body i s)) ->
  forall fuel i (s : St), 0 <= i -> iend - i <= Z.of_nat fuel -> Inv i s ->
    exists j, iend <= j /\ i <= j /\ Inv j (for_loop_fuel fuel i iend step body s).
Proof.
  intros Hstep Hwrap Hbody. induction fuel as [|fuel IH]; intros i s Hi Hfuel Hinv.
  - exists i. simpl. repeat split; [lia | lia | exact Hinv].
  - simpl. destruct (Z.ltb_spec i iend) as [Hlt|Hge].
    + rewrite sadd_small by lia.
      destruct (IH (i + step) (body i s)) as (j & Hj1 & Hj2 & Hj3); [lia | lia | |].
      * apply Hbody; [lia | exact Hinv].
      * exists j. repeat split; [lia | lia | exact Hj3].
    + exists i. repeat split; [lia | lia | exact Hinv].
Qed.

Lemma for_loop_rule {St : Type} (Inv : Z -> St -> Prop) a iend step body (s : St) :
  0 < step -> iend + step <= 18446744073709551616 -> 0 <= a ->
  (forall i s, 0 <= i < iend -> Inv i s -> Inv (i + step) (body i s)) ->
  Inv a s ->
  exists j, iend <= j /\ a <= j /\ Inv j (for_loop a iend step body s).
Proof.
  intros Hstep Hwrap Ha Hbody Hinv. unfold for_loop.
  apply (for_loop_fuel_rule Inv iend step body Hstep Hwrap Hbody); [exact Ha | lia | exact Hinv].
Qed.

(** More fuel than [for_loop] supplies changes nothing: the loop has left
    through its condition. *)
Lemma for_loop_fuel_enough {St : Type} iend step body :
  0 < step -> iend + step <= 18446744073709551616 ->
  forall fuel i (s : St), 0 <= i -> iend - i <= Z.of_nat fuel ->
    for_loop_fuel (S fuel) i iend step body s = for_loop_fuel fuel i iend step body s.
Proof.
  intros Hstep Hwrap. induction fuel as [|fuel IH]; intros i s Hi Hfuel.
  - simpl. destruct (Z.ltb_spec i iend); [lia | reflexivity].
  - change (for_loop_fuel (S (S fuel)) i iend step body s)
      with (if i <? iend
            then for_loop_fuel (S fuel) (sadd i step) iend step body (body i s) else s).
    change (for_loop_fuel (S fuel) i iend step body s)
      with (if i <? iend
            then for_loop_fuel fuel (sadd i step) iend step body (body i s) else s).
    destruct (Z.ltb_spec i iend) as [Hlt|Hge]; [|reflexivity].
    rewrite sadd_small by lia. apply IH; lia.
Qed.

(** A loop whose condition fails at the start does nothing. *)
Lemma for_loop_none {St : Type} a iend step body (s : St) :
  iend <= a -> for_loop a iend step body s = s.
Proof.
  intros Hle. unfold for_loop. replace (Z.to_nat (iend - a)) with O by lia. reflexivity.
Qed.

Section Proofs.
Context {T : Type} {elt : Element T} {traits : IntrinsicTrait}.

Implicit Types (l : list T) (v : @Vec T) (h : @Heap T) (sv : @DenseSubvector)
  (rhs : @Operand T).

(** *** Arrays *)

Lemma length_set l i x : length (set l i x) = length l.
Proof. unfold set. apply length_insert. Qed.

Lemma get_set_eq l i x : 0 <= i < Z.of_nat (length l) -> get (set l i x) i = x.
Proof.
  intros Hi. unfold get, set. rewrite list_lookup_insert_eq by lia. reflexivity.
Qed.

Lemma get_set_ne l i k x : 0 <= i -> 0 <= k -> i <> k -> get (set l i x) k = get l k.
Proof.
  intros Hi Hk Hne. unfold get, set. rewrite list_lookup_insert_ne by lia. reflexivity.
Qed.

Lemma get_outside l k : Z.of_nat (length l) <= k -> get l k = zero.
Proof.
  intros Hk. unfold get. rewrite lookup_ge_None_2 by lia. reflexivity.
Qed.

Lemma get_fmap_seqZ (f : Z -> T) n j :
  0 <= j < n -> get (f <$> seqZ 0 n) j = f j.
Proof.
  intros Hj. unfold get. rewrite list_lookup_fmap, lookup_seqZ_lt by lia.
  simpl. f_equal. lia.
Qed.

Lemma length_fmap_seqZ (f : Z -> T) n : length (f <$> seqZ 0 n) = Z.to_nat n.
Proof. rewrite length_fmap. apply length_seqZ. Qed.

Lemma length_store_lanes value : forall l i, length (store_lanes l i value) = length l.
Proof.
  induction value as [|x value IH]; intros l i; simpl; [reflexivity|].
  rewrite IH. apply length_set.
Qed.

(** A register store changes exactly the lanes that fall inside the
    array. *)
Lemma get_store_lanes_in value : forall l i k,
  0 <= i -> i <= k < i + Z.of_nat (length value) -> k < Z.of_nat (length l) ->
  get (store_lanes l i value) k = get value (k - i).
Proof.
  induction value as [|x value IH]; intros l i k Hi Hk Hlen; simpl in *; [lia|].
  destruct (Z.eq_dec k i) as [->|Hne].
  - replace (i - i) with 0 by lia.
    assert (Hkeep : forall value' l' i', i < i' ->
              get (store_lanes l' i' value') i = get l' i).
    { clear - Hi. induction value' as [|y value' IH']; intros l' i' Hlt; simpl; [reflexivity|].
      rewrite IH' by lia. apply get_set_ne; lia. }
    rewrite Hkeep by lia. rewrite get_set_eq by lia. reflexivity.
  - rewrite IH; [| lia | lia | rewrite length_set; lia].
    unfold get. replace (Z.to_nat (k - i)) with (S (Z.to_nat (k - (i + 1)))) by lia.
    reflexivity.
Qed.

Lemma get_store_lanes_out value : forall l i k,
  0 <= i -> 0 <= k -> ~ (i <= k < i + Z.of_nat (length value)) ->
  get (store_lanes l i value) k = get l k.
Proof.
  induction value as [|x value IH]; intros l i k Hi Hk Hout; simpl in *; [reflexivity|].
  rewrite IH by lia. apply get_set_ne; lia.
Qed.

(** *** The store *)

Lemma heap_set_other h a i x b : b <> a -> heap_set h a i x b = h b.
Proof. intros Hne. unfold heap_set. apply fn_lookup_insert_ne. congruence. Qed.

Lemma heap_set_same h a i x : heap_set h a i x a = vec_set (h a) i x.
Proof. unfold heap_set. apply fn_lookup_insert. Qed.

Lemma heap_storeu_other h a i value b : b <> a -> heap_storeu h a i value b = h b.
Proof. intros Hne. unfold heap_storeu. apply fn_lookup_insert_ne. congruence. Qed.

Lemma heap_storeu_same h a i value : heap_storeu h a i value a = vec_storeu (h a) i value.
Proof. unfold heap_storeu. apply fn_lookup_insert. Qed.

(** *** Views *)

Lemma wf_vec_bounds v :
  wf_vec v -> 0 <= vsize v /\ vsize v <= Z.of_nat (length (vdata v))
              /\ Z.of_nat (length (vdata v)) <= 9223372036854775808.
Proof.
  unfold wf_vec, capacity_of. change (2 ^ 63) with 9223372036854775808. intros [? ?]. lia.
Qed.

Lemma wf_view_fields h sv :
  0 < IT_size -> wf_view h sv ->
  rest_ sv = size_ sv mod IT_size /\
  final_ sv = size_ sv - size_ sv mod IT_size /\
  aligned_ sv =
    (offset_ sv mod IT_size =? 0) &&
    ((offset_ sv + size_ sv =? vsize (h (vector_ sv))) || (size_ sv mod IT_size =? 0)).
Proof.
  intros Hw (Hoff & Hn & Hle & Hvec & Hctor).
  apply wf_vec_bounds in Hvec. destruct Hvec as (Hv0 & Hv1 & Hv2).
  unfold DenseSubvector_ctor in Hctor.
  rewrite sadd_small in Hctor by lia.
  destruct (Z.gtb_spec (offset_ sv + size_ sv) (vsize (h (vector_ sv)))); [lia|].
  pose proof (Z.mod_pos_bound (size_ sv) IT_size Hw) as Hmod.
  pose proof (Z.mod_le (size_ sv) IT_size Hn Hw) as Hmodle.
  rewrite ssub_small in Hctor by lia.
  injection Hctor as Hctor. rewrite <- Hctor. simpl. repeat split; reflexivity.
Qed.

Lemma progress_start (R : Z -> T -> T -> Prop) h sv :
  0 <= size_ sv -> progress R sv h 0 h.
Proof.
  intros Hn. unfold progress. repeat split; try reflexivity; intros; lia.
Qed.

(** One step of a kernel: the elements from [i] up to [i'] are replaced,
    nothing else below the size of the parent is touched. *)
Lemma progress_step (R : Z -> T -> T -> Prop) h sv i i' h1 h2 :
  wf_view h sv -> 0 <= i <= i' ->
  progress R sv h i h1 ->
  (forall b, b <> vector_ sv -> h2 b = h1 b) ->
  vsize (h2 (vector_ sv)) = vsize (h1 (vector_ sv)) ->
  length (vdata (h2 (vector_ sv))) = length (vdata (h1 (vector_ sv))) ->
  (forall k, Z.min i (size_ sv) <= k < Z.min i' (size_ sv) ->
     R k (vec_get (h (vector_ sv)) (offset_ sv + k))
         (vec_get (h2 (vector_ sv)) (offset_ sv + k))) ->
  (forall k, 0 <= k < vsize (h (vector_ sv)) ->
     ~ (offset_ sv + Z.min i (size_ sv) <= k < offset_ sv + Z.min i' (size_ sv)) ->
     vec_get (h2 (vector_ sv)) k = vec_get (h1 (vector_ sv)) k) ->
  progress R sv h i' h2.
Proof.
  intros (Hoff & Hn & Hle & Hvec & _) Hi (P1 & P2 & P3 & P4 & P5) Q1 Q2 Q3 Q4 Q5.
  unfold progress. repeat split.
  - intros b Hb. rewrite Q1 by exact Hb. apply P1. exact Hb.
  - congruence.
  - congruence.
  - intros k Hk. destruct (Z.lt_ge_cases k (Z.min i (size_ sv))) as [Hlt|Hge].
    + rewrite Q5 by lia. apply P4. lia.
    + apply Q4. lia.
  - intros k Hk Hout. rewrite Q5 by lia. apply P5; [exact Hk | lia].
Qed.

Lemma progress_past (R : Z -> T -> T -> Prop) h sv i i' h' :
  size_ sv <= i -> size_ sv <= i' -> progress R sv h i h' -> progress R sv h i' h'.
Proof.
  intros Hi Hi'. unfold progress.
  rewrite (Z.min_r i) by lia. rewrite (Z.min_r i') by lia. tauto.
Qed.

Lemma progress_frame (R : Z -> T -> T -> Prop) h sv i h' :
  progress R sv h i h' -> frame sv h h'.
Proof.
  intros (P1 & P2 & P3 & P4 & P5). unfold frame. split.
  - intros b. destruct (Nat.eq_dec b (vector_ sv)) as [->|Hne]; [exact P2|].
    rewrite P1 by exact Hne. reflexivity.
  - intros b k Hk Hout. destruct (Nat.eq_dec b (vector_ sv)) as [->|Hne].
    + apply P5; [exact Hk|]. intros Hin. apply Hout. split; [reflexivity | lia].
    + rewrite P1 by exact Hne. reflexivity.
Qed.

Lemma updated_frame g h sv h' : updated g sv h h' -> frame sv h h'.
Proof. apply progress_frame. Qed.

Lemma written_frame h sv h' : written sv h h' -> frame sv h h'.
Proof. apply progress_frame. Qed.

Lemma progress_any_refl h sv i : progress any_value sv h i h.
Proof. unfold progress, any_value. repeat split; intros; reflexivity. Qed.

Lemma frame_refl sv h : frame sv h h.
Proof. split; intros; reflexivity. Qed.

(** Two runs that replace the elements of the view in the same way leave
    stores with the same vectors. *)
Lemma updated_same_vectors g h sv h1 h2 :
  wf_view h sv -> updated g sv h h1 -> updated g sv h h2 -> same_vectors h1 h2.
Proof.
  intros (Hoff & Hn & Hle & Hvec & _) (P1 & P2 & P3 & P4 & P5) (Q1 & Q2 & Q3 & Q4 & Q5) a.
  destruct (Nat.eq_dec a (vector_ sv)) as [->|Hne].
  - split; [congruence|]. intros k Hk. rewrite P2 in Hk.
    rewrite Z.min_id in *.
    destruct (Z.lt_ge_cases k (offset_ sv)) as [Hlt|Hge].
    + rewrite P5, Q5 by lia. reflexivity.
    + destruct (Z.lt_ge_cases k (offset_ sv + size_ sv)) as [Hin|Hout].
      * replace k with (offset_ sv + (k - offset_ sv)) by lia.
        rewrite (P4 (k - offset_ sv)), (Q4 (k - offset_ sv)) by lia. reflexivity.
      * rewrite P5, Q5 by lia. reflexivity.
  - rewrite P1, Q1 by exact Hne. split; reflexivity.
Qed.

(** *** Reading the right-hand side *)

(** A right-hand side that cannot alias with the parent of the view reads
    the same values whatever has been written to that parent. *)
Lemma op_at_stable h h1 rhs p k :
  op_canAlias rhs p = false -> (forall b, b <> p -> h1 b = h b) ->
  op_at h1 rhs k = op_at h rhs k.
Proof.
  intros Hno Hsame. destruct rhs as [a|s|v|s]; simpl in *; try reflexivity.
  - apply Nat.eqb_neq in Hno. rewrite Hsame by exact Hno. reflexivity.
  - unfold canAlias in Hno. apply Nat.eqb_neq in Hno.
    unfold subscript. rewrite Hsame by exact Hno. reflexivity.
Qed.

Lemma op_it_load_stable h h1 rhs p it :
  op_canAlias rhs p = false -> (forall b, b <> p -> h1 b = h b) ->
  op_it_load h1 rhs it = op_it_load h rhs it.
Proof.
  intros Hno Hsame. destruct rhs as [a|s|v|s]; simpl in *; try reflexivity.
  - apply Nat.eqb_neq in Hno. rewrite Hsame by exact Hno. reflexivity.
  - unfold canAlias in Hno. apply Nat.eqb_neq in Hno.
    rewrite Hsame by exact Hno. reflexivity.
Qed.

Lemma op_load_stable h h1 rhs p i :
  op_canAlias rhs p = false -> (forall b, b <> p -> h1 b = h b) ->
  op_load h1 rhs i = op_load h rhs i.
Proof.
  intros Hno Hsame. destruct rhs as [a|s|v|s]; simpl in *; try reflexivity.
  - apply Nat.eqb_neq in Hno. rewrite Hsame by exact Hno. reflexivity.
  - unfold canAlias in Hno. apply Nat.eqb_neq in Hno.
    unfold load, loadu. rewrite Hsame by exact Hno. reflexivity.
Qed.

Lemma length_vec_loadu v i : length (vec_loadu v i) = Z.to_nat IT_size.
Proof. unfold vec_loadu. apply length_fmap_seqZ. Qed.

Lemma lane_vec_loadu v i j : 0 <= j < IT_size -> lane (vec_loadu v i) j = vec_get v (i + j).
Proof.
  intros Hj. unfold lane, vec_loadu. rewrite get_fmap_seqZ by exact Hj. reflexivity.
Qed.

(** The lanes of the register the iterator of a dense right-hand side
    loads at [it] are its elements from [it] on. *)
Lemma lane_op_it_load h rhs it j :
  IsSparseVector rhs = false -> wf_operand h rhs ->
  0 <= it -> 0 <= j < IT_size -> it + j < op_size h rhs ->
  lane (op_it_load h rhs it) j = op_at h rhs (it + j).
Proof.
  intros Hd Hwf Hit Hj Hlt. destruct rhs as [a|s|v|s]; simpl in *; try discriminate.
  - apply lane_vec_loadu. exact Hj.
  - destruct Hwf as (Hoff & Hn & Hle & Hvec & _). apply wf_vec_bounds in Hvec.
    unfold size in Hlt. rewrite lane_vec_loadu by exact Hj. unfold subscript.
    rewrite !sadd_small by lia. f_equal. lia.
  - apply lane_vec_loadu. exact Hj.
Qed.

Lemma length_op_it_load h rhs it :
  IsSparseVector rhs = false -> length (op_it_load h rhs it) = Z.to_nat IT_size.
Proof.
  intros Hd. destruct rhs; simpl in *; try discriminate; apply length_vec_loadu.
Qed.

Lemma length_loadu h sv i : length (loadu h sv i) = Z.to_nat IT_size.
Proof.
  unfold loadu. destruct (aligned_ sv || negb (i =? final_ sv)).
  - apply length_vec_loadu.
  - apply length_fmap_seqZ.
Qed.

(** The lanes of the register the view loads at [i] that lie within the
    view are its elements from [i] on: also through the partial load. *)
Lemma lane_loadu h0 h sv i j :
  0 < IT_size -> wf_view h0 sv ->
  0 <= i -> 0 <= j < IT_size -> i + j < size_ sv ->
  lane (loadu h sv i) j = vec_get (h (vector_ sv)) (offset_ sv + (i + j)).
Proof.
  intros Hw Hwf Hi Hj Hlt.
  destruct (wf_view_fields h0 sv Hw Hwf) as (Hrest & Hfinal & _).
  destruct Hwf as (Hoff & Hn & Hle & Hvec & _). apply wf_vec_bounds in Hvec.
  unfold loadu. destruct (aligned_ sv || negb (i =? final_ sv)) eqn:Hc.
  - rewrite lane_vec_loadu by exact Hj. rewrite sadd_small by lia. f_equal. lia.
  - apply orb_false_iff in Hc. destruct Hc as [_ Hc].
    apply negb_false_iff, Z.eqb_eq in Hc.
    unfold lane. rewrite get_fmap_seqZ by exact Hj.
    destruct (Z.ltb_spec j (rest_ sv)); [|lia].
    rewrite (sadd_small (offset_ sv) i) by lia. rewrite sadd_small by lia. f_equal. lia.
Qed.

Lemma lane_op_load h rhs i j :
  0 < IT_size -> IsSparseVector rhs = false -> wf_operand h rhs ->
  0 <= i -> 0 <= j < IT_size -> i + j < op_size h rhs ->
  lane (op_load h rhs i) j = op_at h rhs (i + j).
Proof.
  intros Hw Hd Hwf Hi Hj Hlt. destruct rhs as [a|s|v|s]; simpl in *; try discriminate.
  - apply lane_vec_loadu. exact Hj.
  - unfold load. rewrite (lane_loadu h h s i j Hw Hwf Hi Hj Hlt).
    destruct Hwf as (Hoff & Hn & Hle & Hvec & _). apply wf_vec_bounds in Hvec.
    unfold size in Hlt. unfold subscript. rewrite sadd_small by lia. reflexivity.
  - apply lane_vec_loadu. exact Hj.
Qed.

Lemma length_op_load h rhs i :
  IsSparseVector rhs = false -> length (op_load h rhs i) = Z.to_nat IT_size.
Proof.
  intros Hd. destruct rhs; simpl in *; try discriminate;
    [apply length_vec_loadu | apply length_loadu | apply length_vec_loadu].
Qed.

Lemma lane_zip_with (f : T -> T -> T) (a b : list T) j :
  0 <= j < Z.of_nat (length a) -> j < Z.of_nat (length b) ->
  lane (zip_with f a b) j = f (lane a j) (lane b j).
Proof.
  intros Ha Hb. unfold lane, get. rewrite lookup_zip_with.
  destruct (lookup_lt_is_Some_2 a (Z.to_nat j)) as [x Hx]; [lia|].
  destruct (lookup_lt_is_Some_2 b (Z.to_nat j)) as [y Hy]; [lia|].
  rewrite Hx, Hy. reflexivity.
Qed.

(** *** Single steps of the kernels *)

(** The elements of the view a kernel has not reached yet hold their old
    values. *)
Lemma progress_current (R : Z -> T -> T -> Prop) h sv i h1 k :
  wf_view h sv -> 0 <= i -> progress R sv h i h1 -> i <= k < size_ sv ->
  vec_get (h1 (vector_ sv)) (offset_ sv + k) = vec_get (h (vector_ sv)) (offset_ sv + k).
Proof.
  intros (Hoff & Hn & Hle & Hvec & _) Hi (_ & _ & _ & _ & P5) Hk. apply P5; lia.
Qed.

Lemma heap_set_step (R : Z -> T -> T -> Prop) h sv i h1 x :
  wf_view h sv -> 0 <= i < size_ sv -> progress R sv h i h1 ->
  R i (vec_get (h (vector_ sv)) (offset_ sv + i)) x ->
  progress R sv h (i + 1) (heap_set h1 (vector_ sv) (offset_ sv + i) x).
Proof.
  intros Hwf Hi Hp Hx.
  pose proof Hwf as (Hoff & Hn & Hle & Hvec & _). apply wf_vec_bounds in Hvec.
  pose proof Hp as (P1 & P2 & P3 & P4 & P5).
  apply (progress_step R h sv i (i + 1) h1); try assumption; try lia.
  - intros b Hb. apply heap_set_other. exact Hb.
  - rewrite heap_set_same. reflexivity.
  - rewrite heap_set_same. simpl. apply length_set.
  - intros k Hk. assert (k = i) as -> by lia.
    rewrite heap_set_same. unfold vec_get. simpl. rewrite get_set_eq by lia. exact Hx.
  - intros k Hk Hout. rewrite heap_set_same. unfold vec_get. simpl.
    apply get_set_ne; lia.
Qed.

Lemma storeu_step (R : Z -> T -> T -> Prop) h sv i h1 value :
  wf_view h sv -> 0 < IT_size -> 0 <= i < size_ sv ->
  i + IT_size <= size_ sv \/ offset_ sv + size_ sv = vsize (h (vector_ sv)) ->
  progress R sv h i h1 ->
  length value = Z.to_nat IT_size ->
  (forall j, 0 <= j < IT_size -> i + j < size_ sv ->
     R (i + j) (vec_get (h (vector_ sv)) (offset_ sv + (i + j))) (lane value j)) ->
  progress R sv h (i + IT_size) (heap_storeu h1 (vector_ sv) (offset_ sv + i) value).
Proof.
  intros Hwf Hw Hi Hfull Hp Hlen Hlanes.
  pose proof Hwf as (Hoff & Hn & Hle & Hvec & _). apply wf_vec_bounds in Hvec.
  pose proof Hp as (P1 & P2 & P3 & P4 & P5).
  apply (progress_step R h sv i (i + IT_size) h1); try assumption; try lia.
  - intros b Hb. apply heap_storeu_other. exact Hb.
  - rewrite heap_storeu_same. reflexivity.
  - rewrite heap_storeu_same. simpl. apply length_store_lanes.
  - intros k Hk. rewrite heap_storeu_same. unfold vec_get. simpl.
    rewrite get_store_lanes_in by lia.
    replace (offset_ sv + k - (offset_ sv + i)) with (k - i) by lia.
    change (get value (k - i)) with (lane value (k - i)).
    specialize (Hlanes (k - i) ltac:(lia) ltac:(lia)).
    replace (i + (k - i)) with k in Hlanes by lia. exact Hlanes.
  - intros k Hk Hout. rewrite heap_storeu_same. unfold vec_get. simpl.
    apply get_store_lanes_out; lia.
Qed.

(** *** The default kernels *)

Ltac loop_rule Inv :=
  match goal with
  | |- context [for_loop ?a ?e ?s ?b ?st] =>
      let J := fresh "J" in
      assert (J : exists j, e <= j /\ a <= j /\ Inv j (for_loop a e s b st));
      [apply (for_loop_rule Inv a e s b st) | ]
  end.

Ltac loop_rule_from a Inv :=
  match goal with
  | |- context [for_loop a ?e ?s ?b ?st] =>
      let J := fresh "J" in
      assert (J : exists j, e <= j /\ a <= j /\ Inv j (for_loop a e s b st));
      [apply (for_loop_rule Inv a e s b st) | ]
  end.

(** The default kernel writes the elements of the view in order; what it
    writes at [i] is [f] of the current value and of element [i] of the
    right-hand side as it is then. *)
Lemma dense_default_progress (R : Z -> T -> T -> Prop) (f : T -> T -> T) h sv rhs :
  wf_view h sv ->
  (forall h1 i, 0 <= i < size_ sv -> progress R sv h i h1 ->
     R i (vec_get (h (vector_ sv)) (offset_ sv + i))
         (f (vec_get (h1 (vector_ sv)) (offset_ sv + i)) (op_at h1 rhs i))) ->
  progress R sv h (size_ sv) (dense_default f sv rhs h).
Proof.
  intros Hwf Hval.
  pose proof Hwf as (Hoff & Hn & Hle & Hvec & _). apply wf_vec_bounds in Hvec.
  unfold dense_default, size. rewrite land_sneg_2 by lia.
  set (iend := size_ sv - size_ sv mod 2).
  assert (Hstep : forall i h1, 0 <= i < size_ sv -> progress R sv h i h1 ->
            progress R sv h (i + 1) (update_element f sv rhs (offset_ sv + i) i h1)).
  { intros i h1 Hi Hp. unfold update_element.
    apply heap_set_step; [exact Hwf | exact Hi | exact Hp | apply Hval; assumption]. }
  loop_rule (fun i h1 => i mod 2 = 0 /\ i <= iend /\ progress R sv h i h1).
  - lia.
  - unfold iend. mlia.
  - lia.
  - intros i h1 Hi (Hev & Hie & Hp).
    assert (i + 2 <= iend) by (unfold iend in *; mlia).
    split; [mlia|]. split; [lia|].
    rewrite (sadd_small i (offset_ sv)) by (unfold iend in *; mlia).
    rewrite (sadd_small (i + offset_ sv) 1) by (unfold iend in *; mlia).
    rewrite (sadd_small i 1) by (unfold iend in *; mlia).
    replace (i + offset_ sv + 1) with (offset_ sv + (i + 1)) by lia.
    replace (i + offset_ sv) with (offset_ sv + i) by lia.
    replace (i + 2) with (i + 1 + 1) by lia.
    apply Hstep; [unfold iend in *; mlia|].
    apply Hstep; [unfold iend in *; mlia | exact Hp].
  - split; [reflexivity|]. split; [unfold iend; mlia|]. apply progress_start. exact Hn.
  - destruct J as (j & Hj1 & Hj2 & Hjev & Hj3 & Hp).
    assert (j = iend) as -> by lia.
    destruct (Z.ltb_spec iend (size_ sv)) as [Hlt|Hge].
    + rewrite (sadd_small iend (offset_ sv)) by lia.
      replace (iend + offset_ sv) with (offset_ sv + iend) by lia.
      replace (size_ sv) with (iend + 1) at 1 by (unfold iend in *; mlia).
      apply Hstep; [lia | exact Hp].
    + replace (size_ sv) with iend at 1 by (unfold iend in *; mlia). exact Hp.
Qed.

(** With a right-hand side that cannot alias with the parent, the default
    kernel replaces element [k] of the view by [f] of its old value and
    element [k] of the right-hand side. *)
Lemma dense_default_updated (f : T -> T -> T) h sv rhs :
  wf_view h sv -> op_canAlias rhs (vector_ sv) = false ->
  updated (fun k old => f old (op_at h rhs k)) sv h (dense_default f sv rhs h).
Proof.
  intros Hwf Hno. apply dense_default_progress; [exact Hwf|].
  intros h1 i Hi Hp. unfold becomes.
  rewrite (progress_current _ h sv i h1 i Hwf (proj1 Hi) Hp) by lia.
  rewrite (op_at_stable h h1 rhs (vector_ sv)); [reflexivity | exact Hno | apply Hp].
Qed.

(** Whatever the right-hand side, the default kernel writes within the
    view. *)
Lemma dense_default_written (f : T -> T -> T) h sv rhs :
  wf_view h sv -> written sv h (dense_default f sv rhs h).
Proof.
  intros Hwf. apply dense_default_progress; [exact Hwf|]. intros. exact I.
Qed.

(** The three loops over the absolute indices of the view. *)
Lemma fill_loop_updated (val : T -> T) (g : Z -> T -> T) h sv :
  wf_view h sv ->
  (forall k x, g k x = val x) ->
  updated g sv h
    (for_loop (offset_ sv) (sadd (offset_ sv) (size_ sv)) 1
       (fun i h1 => heap_set h1 (vector_ sv) i (val (vec_get (h1 (vector_ sv)) i))) h).
Proof.
  intros Hwf Hg.
  pose proof Hwf as (Hoff & Hn & Hle & Hvec & _). apply wf_vec_bounds in Hvec.
  unfold updated. rewrite sadd_small by lia.
  loop_rule (fun i h1 => offset_ sv <= i <= offset_ sv + size_ sv
                         /\ progress (becomes g) sv h (i - offset_ sv) h1).
  - lia.
  - lia.
  - lia.
  - intros i h1 Hi (Hie & Hp). split; [lia|].
    replace (i + 1 - offset_ sv) with (i - offset_ sv + 1) by lia.
    replace i with (offset_ sv + (i - offset_ sv)) at 2 3 by lia.
    apply heap_set_step; [exact Hwf | lia | exact Hp |].
    unfold becomes.
    rewrite (progress_current (becomes g) h sv (i - offset_ sv) h1 (i - offset_ sv) Hwf)
      by (try assumption; lia).
    rewrite Hg. reflexivity.
  - split; [lia|]. rewrite Z.sub_diag. apply progress_start. exact Hn.
  - destruct J as (j & Hj1 & Hj2 & Hj3 & Hp).
    replace (size_ sv) with (j - offset_ sv) at 1 by lia. exact Hp.
Qed.

Lemma operator_assign_value_updated h sv x :
  wf_view h sv -> updated (fun _ _ => x) sv h (operator_assign_value sv x h).
Proof.
  intros Hwf. unfold operator_assign_value.
  apply (fill_loop_updated (fun _ => x)); [exact Hwf | reflexivity].
Qed.

Lemma reset_updated h sv :
  wf_view h sv -> updated (fun _ _ => zero) sv h (reset sv h).
Proof.
  intros Hwf. unfold reset.
  apply (fill_loop_updated (fun _ => zero)); [exact Hwf | reflexivity].
Qed.

Lemma scale_updated h sv scalar :
  wf_view h sv -> updated (fun _ old => mul old scalar) sv h (scale sv scalar h).
Proof.
  intros Hwf. unfold scale.
  apply (fill_loop_updated (fun old => mul old scalar)); [exact Hwf | reflexivity].
Qed.

(** *** The intrinsic kernels *)

Lemma wf_traits_bounds :
  wf_traits -> 0 < IT_size <= 2305843009213693952.
Proof.
  intros (k & Hk & ->). split.
  - apply Z.pow_pos_nonneg; lia.
  - change 2305843009213693952 with (2 ^ 61). apply Z.pow_le_mono_r; lia.
Qed.

Lemma multiple_next w i n :
  0 < w -> (w | i) -> (w | n) -> i < n -> i + w <= n.
Proof.
  intros Hw [a ->] [b ->] Hlt. assert (a < b) by nia. nia.
Qed.

Lemma multiple_below_final w i n :
  0 < w -> (w | i) -> 0 <= i < n -> i <> n - n mod w -> i + w <= n - n mod w.
Proof.
  intros Hw [a ->] Hi Hne.
  pose proof (Z.div_mod n w ltac:(lia)) as Hdm.
  pose proof (Z.mod_pos_bound n w Hw) as Hmb.
  replace (n - n mod w) with (w * (n / w)) in * by lia.
  assert (a <= n / w) by nia.
  assert (a <> n / w) by nia. nia.
Qed.

Lemma divide_final w n : 0 < w -> (w | n - n mod w).
Proof.
  intros Hw. exists (n / w). pose proof (Z.div_mod n w ltac:(lia)). lia.
Qed.

(** The view's own [storeu]: a whole register where that stays within the
    view or runs into the padding of the parent, and the [rest_] valid
    lanes otherwise. *)
Lemma view_storeu_step (R : Z -> T -> T -> Prop) h sv i h1 value :
  0 < IT_size <= 2305843009213693952 -> wf_view h sv ->
  (IT_size | i) -> 0 <= i < size_ sv ->
  progress R sv h i h1 ->
  length value = Z.to_nat IT_size ->
  (forall j, 0 <= j < IT_size -> i + j < size_ sv ->
     R (i + j) (vec_get (h (vector_ sv)) (offset_ sv + (i + j))) (lane value j)) ->
  progress R sv h (i + IT_size) (storeu sv i value h1).
Proof.
  intros Hw Hwf Hdiv Hi Hp Hlen Hlanes.
  destruct (wf_view_fields h sv (proj1 Hw) Hwf) as (Hrest & Hfinal & Hal).
  pose proof Hwf as (Hoff & Hn & Hle & Hvec & _). apply wf_vec_bounds in Hvec.
  pose proof (Z.mod_pos_bound (size_ sv) IT_size (proj1 Hw)) as Hmb.
  unfold storeu. destruct (aligned_ sv || negb (i =? final_ sv)) eqn:Hc.
  - rewrite sadd_small by lia.
    apply storeu_step; try assumption; try lia.
    apply orb_true_iff in Hc. destruct Hc as [Hc|Hc].
    + rewrite Hc in Hal. symmetry in Hal. apply andb_true_iff in Hal.
      destruct Hal as [_ Hal]. apply orb_true_iff in Hal. destruct Hal as [Hal|Hal].
      * right. apply Z.eqb_eq in Hal. exact Hal.
      * left. apply Z.eqb_eq in Hal. apply multiple_next; [lia | exact Hdiv | | lia].
        apply Z.mod_divide; [lia | exact Hal].
    + left. apply negb_true_iff, Z.eqb_neq in Hc. rewrite Hfinal in Hc.
      pose proof (multiple_below_final IT_size i (size_ sv) (proj1 Hw) Hdiv Hi Hc). lia.
  - apply orb_false_iff in Hc. destruct Hc as [_ Hc].
    apply negb_false_iff, Z.eqb_eq in Hc.
    loop_rule (fun j h2 => j <= rest_ sv /\ progress R sv h (i + j) h2).
    + lia.
    + lia.
    + lia.
    + intros j h2 Hj (Hjr & Hp2). split; [lia|].
      rewrite (sadd_small (offset_ sv) i) by lia. rewrite sadd_small by lia.
      replace (offset_ sv + i + j) with (offset_ sv + (i + j)) by lia.
      replace (i + (j + 1)) with (i + j + 1) by lia.
      apply heap_set_step; [exact Hwf | lia | exact Hp2 |].
      apply Hlanes; lia.
    + split; [lia|]. rewrite Z.add_0_r. exact Hp.
    + destruct J as (j & Hj1 & Hj2 & Hj3 & Hp2).
      apply (progress_past R h sv (i + j)); [lia | lia | exact Hp2].
Qed.

(** The two loops of an intrinsic kernel write every element of the view,
    given that the register stored at [i] holds in its valid lanes new
    values for the elements from [i] on. *)
Lemma intrinsic_loops_progress (R : Z -> T -> T -> Prop) value_at h sv :
  wf_traits -> wf_view h sv ->
  (forall h1 i, 0 <= i < size_ sv -> (IT_size | i) -> progress R sv h i h1 ->
     length (value_at h1 i i) = Z.to_nat IT_size /\
     forall j, 0 <= j < IT_size -> i + j < size_ sv ->
       R (i + j) (vec_get (h (vector_ sv)) (offset_ sv + (i + j)))
         (lane (value_at h1 i i) j)) ->
  progress R sv h (size_ sv) (intrinsic_loops value_at sv h).
Proof.
  intros Htr Hwf Hval.
  pose proof (wf_traits_bounds Htr) as Hw.
  pose proof Hwf as (Hoff & Hn & Hle & Hvec & _). apply wf_vec_bounds in Hvec.
  destruct Htr as (k & Hk & Hpow).
  unfold intrinsic_loops.
  assert (H4 : IT_size * 4 = 2 ^ (k + 2)).
  { rewrite Hpow, Z.pow_add_r by lia. reflexivity. }
  replace (- IT_size * 4) with (- 2 ^ (k + 2)) by lia.
  rewrite land_wrap_neg_pow2 by lia. rewrite <- H4.
  rewrite smul_small by lia.
  set (w := IT_size) in *.
  set (iend := size_ sv - size_ sv mod (w * 4)).
  pose proof (Z.mod_pos_bound (size_ sv) (w * 4) ltac:(lia)) as Hmb.
  pose proof (Z.mod_le (size_ sv) (w * 4) Hn ltac:(lia)) as Hml.
  assert (Hdend : (w * 4 | iend)) by (apply divide_final; lia).
  assert (Hw4 : (w | w * 4)) by (exists 4; lia).
  loop_rule_from 0 (fun i (s : @Heap T * Z) =>
               snd s = i /\ (w * 4 | i) /\ i <= iend /\ progress R sv h i (fst s)).
  - lia.
  - unfold iend. lia.
  - lia.
  - intros i [h1 it] Hi (Hit & Hdiv & Hie & Hp). simpl in Hit, Hp. subst it.
    assert (Hnext : i + w * 4 <= iend) by (apply multiple_next; [lia | exact Hdiv | exact Hdend | lia]).
    assert (Hdi : (w | i)) by (eapply Z.divide_trans; [exact Hw4 | exact Hdiv]).
    rewrite (smul_small w 2), (smul_small w 3) by lia.
    rewrite (sadd_small (offset_ sv) i) by lia.
    rewrite (sadd_small (offset_ sv + i) w) by lia.
    rewrite (sadd_small (offset_ sv + i) (w * 2)) by lia.
    rewrite (sadd_small (offset_ sv + i) (w * 3)) by lia.
    rewrite (sadd_small i w) by lia.
    rewrite (sadd_small i (w * 2)) by lia.
    rewrite (sadd_small i (w * 3)) by lia.
    rewrite (sadd_small (i + w) w) by lia.
    rewrite (sadd_small (i + w + w) w) by lia.
    rewrite (sadd_small (i + w + w + w) w) by lia.
    replace (i + w * 2) with (i + w + w) by lia.
    replace (i + w * 3) with (i + w + w + w) by lia.
    replace (offset_ sv + i + w) with (offset_ sv + (i + w)) by lia.
    replace (offset_ sv + i + w * 2) with (offset_ sv + (i + w + w)) by lia.
    replace (offset_ sv + i + w * 3) with (offset_ sv + (i + w + w + w)) by lia.
    replace (i + w * 4) with (i + w + w + w + w) by lia.
    assert (Hd1 : (w | i + w)) by (apply Z.divide_add_r; [exact Hdi | apply Z.divide_refl]).
    assert (Hd2 : (w | i + w + w)) by (apply Z.divide_add_r; [exact Hd1 | apply Z.divide_refl]).
    assert (Hd3 : (w | i + w + w + w)) by (apply Z.divide_add_r; [exact Hd2 | apply Z.divide_refl]).
    simpl. split; [reflexivity|]. split.
    { replace (i + w + w + w + w) with (i + w * 4) by lia.
      apply Z.divide_add_r; [exact Hdiv | apply Z.divide_refl]. }
    split; [lia|].
    assert (S1 : progress R sv h (i + w)
                   (heap_storeu h1 (vector_ sv) (offset_ sv + i) (value_at h1 i i))).
    { destruct (Hval h1 i ltac:(lia) Hdi Hp) as [Hl Hlanes].
      apply storeu_step; try assumption; unfold iend in *; lia. }
    set (h2 := heap_storeu h1 (vector_ sv) (offset_ sv + i) (value_at h1 i i)) in *.
    assert (S2 : progress R sv h (i + w + w)
                   (heap_storeu h2 (vector_ sv) (offset_ sv + (i + w))
                      (value_at h2 (i + w) (i + w)))).
    { destruct (Hval h2 (i + w) ltac:(unfold iend in *; lia) Hd1 S1) as [Hl Hlanes].
      apply storeu_step; try assumption; unfold iend in *; lia. }
    set (h3 := heap_storeu h2 (vector_ sv) (offset_ sv + (i + w))
                 (value_at h2 (i + w) (i + w))) in *.
    assert (S3 : progress R sv h (i + w + w + w)
                   (heap_storeu h3 (vector_ sv) (offset_ sv + (i + w + w))
                      (value_at h3 (i + w + w) (i + w + w)))).
    { destruct (Hval h3 (i + w + w) ltac:(unfold iend in *; lia) Hd2 S2) as [Hl Hlanes].
      apply storeu_step; try assumption; unfold iend in *; lia. }
    set (h4 := heap_storeu h3 (vector_ sv) (offset_ sv + (i + w + w))
                 (value_at h3 (i + w + w) (i + w + w))) in *.
    destruct (Hval h4 (i + w + w + w) ltac:(unfold iend in *; lia) Hd3 S3) as [Hl Hlanes].
    apply storeu_step; try assumption; unfold iend in *; lia.
  - simpl. split; [reflexivity|]. split; [apply Z.divide_0_r|].
    split; [unfold iend; lia|]. apply progress_start. exact Hn.
  - destruct J as (j & Hj1 & Hj2 & Hj3 & Hjd & Hj4 & Hp).
    assert (j = iend) as -> by lia.
    destruct (for_loop 0 iend (w * 4) _ (h, 0)) as [h1 it1]. simpl in Hj3, Hp.
    rewrite Hj3. clear Hj3 it1.
    loop_rule (fun i (s : @Heap T * Z) =>
                 snd s = i /\ (w | i) /\ progress R sv h i (fst s)).
    + lia.
    + lia.
    + unfold iend. lia.
    + intros i [h2 it] Hi (Hit & Hdiv & Hp2). simpl in Hit, Hp2. subst it.
      rewrite sadd_small by lia. simpl. split; [reflexivity|]. split.
      { apply Z.divide_add_r; [exact Hdiv | apply Z.divide_refl]. }
      destruct (Hval h2 i Hi Hdiv Hp2) as [Hl Hlanes].
      apply view_storeu_step; try assumption.
    + simpl. split; [reflexivity|]. split; [|exact Hp].
      eapply Z.divide_trans; [exact Hw4 | exact Hdend].
    + destruct J as (j & Hj1' & Hj2' & Hj3' & Hjd' & Hp').
      apply (progress_past R h sv j); [lia | lia | exact Hp'].
Qed.

(** An aligned view stores whole registers only: each stays within the
    view, or the view ends where its parent ends. *)
Lemma aligned_whole_register h sv i :
  0 < IT_size -> wf_view h sv -> aligned_ sv = true ->
  (IT_size | i) -> 0 <= i < size_ sv ->
  i + IT_size <= size_ sv \/ offset_ sv + size_ sv = vsize (h (vector_ sv)).
Proof.
  intros Hw Hwf Hal Hdiv Hi.
  destruct (wf_view_fields h sv Hw Hwf) as (_ & _ & Heq).
  rewrite Hal in Heq. symmetry in Heq. apply andb_true_iff in Heq.
  destruct Heq as [_ Heq]. apply orb_true_iff in Heq. destruct Heq as [Heq|Heq].
  - right. apply Z.eqb_eq in Heq. exact Heq.
  - left. apply Z.eqb_eq in Heq. apply multiple_next; [lia | exact Hdiv | | lia].
    apply Z.mod_divide; [lia | exact Heq].
Qed.

(** The intrinsic assignment kernel, on its streaming branch and on its
    blocked branch, writes every element of the view, given that the
    registers it loads from the right-hand side hold in their valid lanes
    new values for the elements. *)
Lemma assign_vectorized_progress (R : Z -> T -> T -> Prop) h sv rhs :
  wf_traits -> wf_view h sv -> IsSparseVector rhs = false ->
  (forall h1 i j, 0 <= i < size_ sv -> (IT_size | i) -> progress R sv h i h1 ->
     0 <= j < IT_size -> i + j < size_ sv ->
     R (i + j) (vec_get (h (vector_ sv)) (offset_ sv + (i + j))) (lane (op_load h1 rhs i) j)
     /\ R (i + j) (vec_get (h (vector_ sv)) (offset_ sv + (i + j)))
          (lane (op_it_load h1 rhs i) j)) ->
  progress R sv h (size_ sv) (assign_vectorized sv rhs h).
Proof.
  intros Htr Hwf Hd Hval.
  pose proof (wf_traits_bounds Htr) as Hw.
  pose proof Hwf as (Hoff & Hn & Hle & Hvec & _). apply wf_vec_bounds in Hvec.
  unfold assign_vectorized.
  destruct (useStreaming && aligned_ sv
            && (size_ sv >? cacheSize / smul sizeof_ElementType 3)
            && negb (op_isAliased rhs (vector_ sv))) eqn:Hstream.
  - apply andb_true_iff in Hstream. destruct Hstream as [Hstream _].
    apply andb_true_iff in Hstream. destruct Hstream as [Hstream _].
    apply andb_true_iff in Hstream. destruct Hstream as [_ Hal].
    unfold size.
    loop_rule (fun i h1 => (IT_size | i) /\ progress R sv h i h1).
    + lia.
    + lia.
    + lia.
    + intros i h1 Hi (Hdiv & Hp). split.
      { apply Z.divide_add_r; [exact Hdiv | apply Z.divide_refl]. }
      rewrite sadd_small by lia.
      change (heap_stream h1 (vector_ sv) (offset_ sv + i) (op_load h1 rhs i))
        with (heap_storeu h1 (vector_ sv) (offset_ sv + i) (op_load h1 rhs i)).
      apply storeu_step; try assumption; try lia.
      * apply (aligned_whole_register h sv i); try assumption; lia.
      * apply length_op_load. exact Hd.
      * intros j Hj Hlt. apply (Hval h1 i j); assumption.
    + split; [apply Z.divide_0_r | apply progress_start; exact Hn].
    + destruct J as (j & Hj1 & Hj2 & Hjd & Hp).
      apply (progress_past R h sv j); [lia | lia | exact Hp].
  - apply intrinsic_loops_progress; [exact Htr | exact Hwf |].
    intros h1 i Hi Hdiv Hp.
    split; [apply length_op_it_load; exact Hd|].
    intros j Hj Hlt. apply (Hval h1 i j); assumption.
Qed.

(** With a right-hand side of the size of the view that cannot alias with
    its parent, the intrinsic assignment kernel replaces element [k] of the
    view by element [k] of the right-hand side. *)
Lemma assign_vectorized_updated h sv rhs :
  wf_traits -> wf_view h sv ->
  IsSparseVector rhs = false -> wf_operand h rhs ->
  op_size h rhs = size_ sv -> op_canAlias rhs (vector_ sv) = false ->
  updated (fun k _ => op_at h rhs k) sv h (assign_vectorized sv rhs h).
Proof.
  intros Htr Hwf Hd Hop Hsize Hno.
  pose proof (wf_traits_bounds Htr) as Hw.
  apply assign_vectorized_progress; try assumption.
  intros h1 i j Hi Hdiv Hp Hj Hlt. unfold becomes.
  rewrite (op_load_stable h h1 rhs (vector_ sv) i Hno (proj1 Hp)).
  rewrite (op_it_load_stable h h1 rhs (vector_ sv) i Hno (proj1 Hp)).
  rewrite lane_op_load by (try assumption; lia).
  rewrite lane_op_it_load by (try assumption; lia).
  split; reflexivity.
Qed.

Lemma assign_vectorized_written h sv rhs :
  wf_traits -> wf_view h sv -> IsSparseVector rhs = false ->
  written sv h (assign_vectorized sv rhs h).
Proof.
  intros Htr Hwf Hd. apply assign_vectorized_progress; try assumption.
  intros. split; exact I.
Qed.

Lemma length_compound_value (f : T -> T -> T) h sv rhs i it :
  IsSparseVector rhs = false ->
  length (compound_value f sv rhs h i it) = Z.to_nat IT_size.
Proof.
  intros Hd. unfold compound_value, load.
  rewrite length_zip_with, length_loadu, length_op_it_load by exact Hd. lia.
Qed.

(** The compound intrinsic kernels replace element [k] of the view by [f]
    of its old value and element [k] of the right-hand side. *)
Lemma compound_vectorized_updated (f : T -> T -> T) h sv rhs :
  wf_traits -> wf_view h sv ->
  IsSparseVector rhs = false -> wf_operand h rhs ->
  op_size h rhs = size_ sv -> op_canAlias rhs (vector_ sv) = false ->
  updated (fun k old => f old (op_at h rhs k)) sv h
    (intrinsic_loops (compound_value f sv rhs) sv h).
Proof.
  intros Htr Hwf Hd Hop Hsize Hno.
  pose proof (wf_traits_bounds Htr) as Hw.
  apply intrinsic_loops_progress; [exact Htr | exact Hwf |].
  intros h1 i Hi Hdiv Hp.
  split; [apply length_compound_value; exact Hd|].
  intros j Hj Hlt. unfold becomes, compound_value, load.
  rewrite (op_it_load_stable h h1 rhs (vector_ sv) i Hno (proj1 Hp)).
  rewrite lane_zip_with
    by (rewrite ?length_loadu, ?length_op_it_load by exact Hd; lia).
  rewrite (lane_loadu h h1 sv i j) by (try assumption; lia).
  rewrite (progress_current _ h sv i h1 (i + j) Hwf (proj1 Hi) Hp) by lia.
  rewrite lane_op_it_load by (try assumption; lia). reflexivity.
Qed.

Lemma compound_vectorized_written (f : T -> T -> T) h sv rhs :
  wf_traits -> wf_view h sv -> IsSparseVector rhs = false ->
  written sv h (intrinsic_loops (compound_value f sv rhs) sv h).
Proof.
  intros Htr Hwf Hd.
  apply intrinsic_loops_progress; [exact Htr | exact Hwf |].
  intros h1 i Hi Hdiv Hp.
  split; [apply length_compound_value; exact Hd|]. intros. exact I.
Qed.

(** *** Composition *)

(** Only the old values of the elements matter. *)
Lemma updated_ext_at g g' h sv h' :
  (forall k, 0 <= k < size_ sv ->
     g k (vec_get (h (vector_ sv)) (offset_ sv + k))
     = g' k (vec_get (h (vector_ sv)) (offset_ sv + k))) ->
  updated g sv h h' -> updated g' sv h h'.
Proof.
  intros Heq (P1 & P2 & P3 & P4 & P5). unfold updated, progress, becomes in *.
  repeat split; try assumption. intros k Hk. rewrite <- Heq by lia. apply P4. exact Hk.
Qed.

Lemma updated_ext g g' h sv h' :
  (forall k x, g k x = g' k x) -> updated g sv h h' -> updated g' sv h h'.
Proof.
  intros Heq. apply updated_ext_at. intros k _. apply Heq.
Qed.

Lemma updated_id h sv : updated (fun _ old => old) sv h h.
Proof. unfold updated, progress, becomes. repeat split; intros; reflexivity. Qed.

(** A kernel keeps the view a view of the store. *)
Lemma wf_view_preserved (R : Z -> T -> T -> Prop) h sv i h' :
  progress R sv h i h' -> wf_view h sv -> wf_view h' sv.
Proof.
  intros (P1 & P2 & P3 & P4 & P5) (Hoff & Hn & Hle & Hvec & Hctor).
  unfold wf_view, wf_vec, capacity_of, DenseSubvector_ctor in *.
  rewrite P2, P3. repeat split; try assumption; try lia.
Qed.

Lemma updated_trans g1 g2 h sv h1 h2 :
  wf_view h sv ->
  updated g1 sv h h1 -> updated g2 sv h1 h2 ->
  updated (fun k old => g2 k (g1 k old)) sv h h2.
Proof.
  intros (Hoff & Hn & Hle & Hvec & _) (P1 & P2 & P3 & P4 & P5) (Q1 & Q2 & Q3 & Q4 & Q5).
  unfold updated, progress, becomes in *. repeat split.
  - intros b Hb. rewrite Q1, P1 by exact Hb. reflexivity.
  - congruence.
  - congruence.
  - intros k Hk. rewrite Q4 by exact Hk. rewrite P4 by exact Hk. reflexivity.
  - intros k Hk Hout. rewrite Q5; [apply P5; assumption | lia | exact Hout].
Qed.

(** *** The sparse kernels *)

Lemma sparse_fold_updated (f : Z -> T -> T -> T) h sv :
  wf_view h sv ->
  forall es g h1,
    NoDup (fst <$> es) ->
    (forall e, e ∈ es -> 0 <= fst e < size_ sv) ->
    (forall e old, e ∈ es -> g (fst e) old = old) ->
    updated g sv h h1 ->
    updated (sparse_result f es g) sv h
      (fold_left
         (fun h e =>
            let i := sadd (fst e) (offset_ sv) in
            heap_set h (vector_ sv) i (f (fst e) (vec_get (h (vector_ sv)) i) (snd e)))
         es h1).
Proof.
  intros Hwf.
  pose proof Hwf as (Hoff & Hn & Hle & Hvec & _). apply wf_vec_bounds in Hvec.
  induction es as [|e es IH]; intros g h1 Hnd Hin Hg Hup.
  - simpl. eapply updated_ext; [|exact Hup]. reflexivity.
  - simpl. rewrite fmap_cons in Hnd.
    pose proof (NoDup_cons_1_1 _ _ Hnd) as Hfresh. apply NoDup_cons_1_2 in Hnd.
    assert (He : 0 <= fst e < size_ sv) by (apply Hin; left).
    rewrite sadd_small by lia.
    set (g' := fun k old => if fst e =? k then f k old (snd e) else g k old).
    assert (Hup' : updated g' sv h
              (heap_set h1 (vector_ sv) (fst e + offset_ sv)
                 (f (fst e) (vec_get (h1 (vector_ sv)) (fst e + offset_ sv)) (snd e)))).
    { destruct Hup as (P1 & P2 & P3 & P4 & P5). rewrite Z.min_id in *.
      unfold updated, progress, becomes in *. rewrite Z.min_id.
      rewrite heap_set_same. simpl. rewrite length_set. repeat split; try assumption.
      - intros b Hb. rewrite heap_set_other by exact Hb. apply P1. exact Hb.
      - intros k Hk. unfold vec_get. simpl. unfold g'.
        destruct (Z.eqb_spec (fst e) k) as [<-|Hne].
        + replace (offset_ sv + fst e) with (fst e + offset_ sv) by lia.
          rewrite get_set_eq by lia. fold (vec_get (h1 (vector_ sv)) (fst e + offset_ sv)).
          replace (fst e + offset_ sv) with (offset_ sv + fst e) by lia.
          rewrite P4 by lia. rewrite Hg by left. reflexivity.
        + rewrite get_set_ne by lia. apply P4. exact Hk.
      - intros k Hk Hout. unfold vec_get. simpl. rewrite get_set_ne by lia.
        apply P5; assumption. }
    eapply updated_ext; [|apply (IH g'); [exact Hnd | | |exact Hup']].
    + intros k x. unfold sparse_result. simpl. unfold g'.
      destruct (Z.eqb_spec (fst e) k) as [<-|Hne].
      * destruct (List.find (fun e0 => fst e0 =? fst e) es) as [e'|] eqn:Hfind;
          [|reflexivity].
        apply List.find_some in Hfind. destruct Hfind as [Hin' Heq'].
        apply Z.eqb_eq in Heq'. exfalso. apply Hfresh.
        rewrite <- Heq'. apply list_elem_of_fmap_2. apply list_elem_of_In. exact Hin'.
      * reflexivity.
    + intros e' He'. apply Hin. right. exact He'.
    + intros e' old He'. unfold g'.
      destruct (Z.eqb_spec (fst e) (fst e')) as [Heq|Hne].
      * exfalso. apply Hfresh. rewrite Heq. apply list_elem_of_fmap_2. exact He'.
      * apply Hg. right. exact He'.
Qed.

Lemma sparse_loop_updated (f : Z -> T -> T -> T) h sv s :
  wf_view h sv -> wf_sparse s -> sp_size s = size_ sv ->
  updated (sparse_result f (sp_elements s) (fun _ old => old)) sv h (sparse_loop f sv s h).
Proof.
  intros Hwf (Hs & Hin & Hnd) Hsize. unfold sparse_loop.
  apply sparse_fold_updated; try assumption.
  - intros e He. rewrite <- Hsize. apply Hin. exact He.
  - reflexivity.
  - apply updated_id.
Qed.

(** Multiplication by a sparse vector: the elements it stores are
    multiplied, every other element of the view becomes the default
    value. *)
Lemma multAssign_sparse_updated h sv s :
  wf_view h sv -> wf_sparse s -> sp_size s = size_ sv ->
  updated (sparse_result (fun _ old x => mul old x) (sp_elements s) (fun _ _ => zero))
    sv h (multAssign_sparse sv s h).
Proof.
  intros Hwf Hs Hsize.
  pose proof Hwf as (Hoff & Hn & Hle & Hvec & _). apply wf_vec_bounds in Hvec.
  unfold multAssign_sparse.
  pose proof (reset_updated h sv Hwf) as Hr.
  pose proof (wf_view_preserved _ h sv _ _ Hr Hwf) as Hwf'.
  set (tmp := mkVec (size sv) (subscript h sv <$> seqZ 0 (size sv))).
  pose proof (sparse_loop_updated (fun i _ x => mul (vec_get tmp i) x)
                (reset sv h) sv s Hwf' Hs Hsize) as Hl.
  pose proof (updated_trans _ _ h sv _ _ Hwf Hr Hl) as Ht.
  eapply updated_ext_at; [|exact Ht].
  intros k Hk. unfold sparse_result.
  destruct (List.find (fun e => fst e =? k) (sp_elements s)) as [e|] eqn:Hfind;
    [|reflexivity].
  unfold tmp, vec_get, size. simpl. rewrite get_fmap_seqZ by lia.
  unfold subscript, vec_get. rewrite sadd_small by lia. reflexivity.
Qed.

(** *** The temporary of the operators *)

Lemma evaluate_sparse h s : evaluate h (OpSparse s) = OpSparse s.
Proof. reflexivity. Qed.

(** The temporary a dense right-hand side is evaluated into is a dense
    vector of its own with the elements of the right-hand side. *)
Lemma evaluate_dense h rhs :
  IsSparseVector rhs = false -> wf_operand h rhs ->
  0 <= op_size h rhs <= 9223372036854775808 ->
  IsSparseVector (evaluate h rhs) = false /\
  (forall a, op_canAlias (evaluate h rhs) a = false) /\
  (forall h', wf_operand h' (evaluate h rhs)) /\
  (forall h', op_size h' (evaluate h rhs) = op_size h rhs) /\
  (forall h' k, 0 <= k < op_size h rhs -> op_at h' (evaluate h rhs) k = op_at h rhs k).
Proof.
  intros Hd Hwf Hn.
  assert (Heq : evaluate h rhs
                = OpTemp (mkVec (op_size h rhs) (op_at h rhs <$> seqZ 0 (op_size h rhs)))).
  { destruct rhs; simpl in *; try discriminate; reflexivity. }
  rewrite Heq. split; [reflexivity|]. split; [reflexivity|]. split; [|split].
  - intros h'. unfold wf_operand, wf_vec, capacity_of. cbn [vsize vdata].
    rewrite length_fmap_seqZ. change (2 ^ 63) with 9223372036854775808. lia.
  - reflexivity.
  - intros h' k Hk. unfold op_at, vec_get. cbn [vdata]. apply get_fmap_seqZ. exact Hk.
Qed.

Lemma wf_view_size_bound h sv :
  wf_view h sv -> 0 <= size_ sv <= 9223372036854775808.
Proof.
  intros (Hoff & Hn & Hle & Hvec & _). apply wf_vec_bounds in Hvec. lia.
Qed.

(** *** Kernel selection *)

Lemma dense_dispatch_updated (b : bool) (f : T -> T -> T) h sv rhs :
  (b = true -> wf_traits) -> wf_view h sv ->
  IsSparseVector rhs = false -> wf_operand h rhs ->
  op_size h rhs = size_ sv -> op_canAlias rhs (vector_ sv) = false ->
  updated (fun k old => f old (op_at h rhs k)) sv h
    (if b then intrinsic_loops (compound_value f sv rhs) sv h
     else dense_default f sv rhs h).
Proof.
  intros Htr Hwf Hd Hop Hsize Hno. destruct b.
  - apply compound_vectorized_updated; try assumption. apply Htr. reflexivity.
  - apply dense_default_updated; assumption.
Qed.

Lemma assign_dense_updated h sv rhs :
  (vectorizable = true -> wf_traits) -> wf_view h sv ->
  IsSparseVector rhs = false -> wf_operand h rhs ->
  op_size h rhs = size_ sv -> op_canAlias rhs (vector_ sv) = false ->
  updated (fun k _ => op_at h rhs k) sv h (assign sv rhs h).
Proof.
  intros Htr Hwf Hd Hop Hsize Hno.
  assert (Heq : assign sv rhs h
                = if VectorizedAssign then assign_vectorized sv rhs h
                  else assign_default sv rhs h).
  { destruct rhs; simpl in *; try discriminate; reflexivity. }
  rewrite Heq. unfold VectorizedAssign. destruct vectorizable; simpl.
  - apply assign_vectorized_updated; try assumption. apply Htr. reflexivity.
  - unfold assign_default. apply (dense_default_updated (fun _ r => r)); assumption.
Qed.

Lemma addAssign_dense_updated h sv rhs :
  (vectorizable = true -> wf_traits) -> wf_view h sv ->
  IsSparseVector rhs = false -> wf_operand h rhs ->
  op_size h rhs = size_ sv -> op_canAlias rhs (vector_ sv) = false ->
  updated (fun k old => add old (op_at h rhs k)) sv h (addAssign sv rhs h).
Proof.
  intros Htr Hwf Hd Hop Hsize Hno.
  assert (Heq : addAssign sv rhs h
                = if VectorizedAddAssign
                  then intrinsic_loops (compound_value add sv rhs) sv h
                  else dense_default add sv rhs h).
  { destruct rhs; simpl in *; try discriminate; reflexivity. }
  rewrite Heq. apply dense_dispatch_updated; try assumption.
  unfold VectorizedAddAssign. intros Hb. apply Htr.
  destruct vectorizable; [reflexivity | discriminate].
Qed.

Lemma subAssign_dense_updated h sv rhs :
  (vectorizable = true -> wf_traits) -> wf_view h sv ->
  IsSparseVector rhs = false -> wf_operand h rhs ->
  op_size h rhs = size_ sv -> op_canAlias rhs (vector_ sv) = false ->
  updated (fun k old => sub old (op_at h rhs k)) sv h (subAssign sv rhs h).
Proof.
  intros Htr Hwf Hd Hop Hsize Hno.
  assert (Heq : subAssign sv rhs h
                = if VectorizedSubAssign
                  then intrinsic_loops (compound_value sub sv rhs) sv h
                  else dense_default sub sv rhs h).
  { destruct rhs; simpl in *; try discriminate; reflexivity. }
  rewrite Heq. apply dense_dispatch_updated; try assumption.
  unfold VectorizedSubAssign. intros Hb. apply Htr.
  destruct vectorizable; [reflexivity | discriminate].
Qed.

Lemma multAssign_dense_updated h sv rhs :
  (vectorizable = true -> wf_traits) -> wf_view h sv ->
  IsSparseVector rhs = false -> wf_operand h rhs ->
  op_size h rhs = size_ sv -> op_canAlias rhs (vector_ sv) = false ->
  updated (fun k old => mul old (op_at h rhs k)) sv h (multAssign sv rhs h).
Proof.
  intros Htr Hwf Hd Hop Hsize Hno.
  assert (Heq : multAssign sv rhs h
                = if VectorizedMultAssign
                  then intrinsic_loops (compound_value mul sv rhs) sv h
                  else dense_default mul sv rhs h).
  { destruct rhs; simpl in *; try discriminate; reflexivity. }
  rewrite Heq. apply dense_dispatch_updated; try assumption.
  unfold VectorizedMultAssign. intros Hb. apply Htr.
  destruct vectorizable; [reflexivity | discriminate].
Qed.

(** A kernel run on the temporary of a dense right-hand side produces what
    the right-hand side held when it was evaluated, aliased or not. *)
Lemma through_temporary (K : DenseSubvector -> Operand -> Heap -> Heap)
    (f : T -> T -> T) h sv rhs :
  (forall tmp, IsSparseVector tmp = false -> wf_operand h tmp ->
     op_size h tmp = size_ sv -> op_canAlias tmp (vector_ sv) = false ->
     updated (fun k old => f old (op_at h tmp k)) sv h (K sv tmp h)) ->
  wf_view h sv -> IsSparseVector rhs = false -> wf_operand h rhs ->
  op_size h rhs = size_ sv ->
  updated (fun k old => f old (op_at h rhs k)) sv h (K sv (evaluate h rhs) h).
Proof.
  intros HK Hwf Hd Hop Hsize.
  pose proof (wf_view_size_bound h sv Hwf) as Hb.
  destruct (evaluate_dense h rhs Hd Hop ltac:(lia)) as (E1 & E2 & E3 & E4 & E5).
  eapply updated_ext_at; [|apply HK; [exact E1 | apply E3 | rewrite E4; exact Hsize | apply E2]].
  intros k Hk. simpl. rewrite E5 by lia. reflexivity.
Qed.

(** *** The assignment operators *)

Lemma canAlias_dense rhs a : op_canAlias rhs a = true -> IsSparseVector rhs = false.
Proof. destruct rhs; simpl; intros; try discriminate; reflexivity. Qed.

(** [operator=] with a right-hand side of the size of the view returns
    normally and leaves the elements of the right-hand side in the view. *)
Lemma operator_assign_updated h sv rhs :
  (vectorizable = true -> wf_traits) -> wf_view h sv -> wf_operand h rhs ->
  op_size h rhs = size sv ->
  exists h', operator_assign sv rhs h = (h', inr tt) /\
             updated (fun k _ => op_at h rhs k) sv h h'.
Proof.
  intros Htr Hwf Hop Hsize. unfold operator_assign, bind, gets, throw, modify, ret.
  rewrite Hsize, Z.eqb_refl. cbn [negb]. unfold size in Hsize.
  destruct (op_canAlias rhs (vector_ sv)) eqn:Hal.
  - pose proof (canAlias_dense _ _ Hal) as Hd.
    eexists. split; [reflexivity|].
    apply (through_temporary assign (fun _ r => r)); try assumption.
    intros tmp T1 T2 T3 T4. apply assign_dense_updated; assumption.
  - destruct rhs as [a|s|v|s]; cbn [IsSparseVector]; (eexists; split; [reflexivity|]).
    + apply assign_dense_updated; try assumption; reflexivity.
    + apply assign_dense_updated; try assumption; reflexivity.
    + apply assign_dense_updated; try assumption; reflexivity.
    + pose proof (reset_updated h sv Hwf) as Hr.
      pose proof (wf_view_preserved _ h sv _ _ Hr Hwf) as Hwf'.
      pose proof (sparse_loop_updated (fun _ _ x => x) (reset sv h) sv s Hwf' Hop Hsize)
        as Hl.
      pose proof (updated_trans _ _ h sv _ _ Hwf Hr Hl) as Ht.
      eapply updated_ext; [|exact Ht].
      intros k x. unfold sparse_result, op_at, sparse_at.
      destruct (List.find (fun e => fst e =? k) (sp_elements s)); reflexivity.
Qed.

Lemma operator_add_assign_updated h sv rhs :
  (vectorizable = true -> wf_traits) -> wf_view h sv -> wf_operand h rhs ->
  op_size h rhs = size sv ->
  exists h', operator_add_assign sv rhs h = (h', inr tt) /\
             updated (combined add h rhs) sv h h'.
Proof.
  intros Htr Hwf Hop Hsize. unfold operator_add_assign, bind, gets, throw, modify, ret.
  rewrite Hsize, Z.eqb_refl. cbn [negb]. unfold size in Hsize.
  destruct (op_canAlias rhs (vector_ sv)) eqn:Hal.
  - pose proof (canAlias_dense _ _ Hal) as Hd.
    eexists. split; [reflexivity|].
    assert (Hc : combined add h rhs = fun k old => add old (op_at h rhs k))
      by (destruct rhs; simpl in *; try discriminate; reflexivity).
    rewrite Hc. apply (through_temporary addAssign add); try assumption.
    intros tmp T1 T2 T3 T4. apply addAssign_dense_updated; assumption.
  - destruct rhs as [a|s|v|s]; (eexists; split; [reflexivity|]).
    + apply addAssign_dense_updated; try assumption; reflexivity.
    + apply addAssign_dense_updated; try assumption; reflexivity.
    + apply addAssign_dense_updated; try assumption; reflexivity.
    + apply (sparse_loop_updated (fun _ old x => add old x)); assumption.
Qed.

Lemma operator_sub_assign_updated h sv rhs :
  (vectorizable = true -> wf_traits) -> wf_view h sv -> wf_operand h rhs ->
  op_size h rhs = size sv ->
  exists h', operator_sub_assign sv rhs h = (h', inr tt) /\
             updated (combined sub h rhs) sv h h'.
Proof.
  intros Htr Hwf Hop Hsize. unfold operator_sub_assign, bind, gets, throw, modify, ret.
  rewrite Hsize, Z.eqb_refl. cbn [negb]. unfold size in Hsize.
  destruct (op_canAlias rhs (vector_ sv)) eqn:Hal.
  - pose proof (canAlias_dense _ _ Hal) as Hd.
    eexists. split; [reflexivity|].
    assert (Hc : combined sub h rhs = fun k old => sub old (op_at h rhs k))
      by (destruct rhs; simpl in *; try discriminate; reflexivity).
    rewrite Hc. apply (through_temporary subAssign sub); try assumption.
    intros tmp T1 T2 T3 T4. apply subAssign_dense_updated; assumption.
  - destruct rhs as [a|s|v|s]; (eexists; split; [reflexivity|]).
    + apply subAssign_dense_updated; try assumption; reflexivity.
    + apply subAssign_dense_updated; try assumption; reflexivity.
    + apply subAssign_dense_updated; try assumption; reflexivity.
    + apply (sparse_loop_updated (fun _ old x => sub old x)); assumption.
Qed.

Lemma operator_mult_assign_updated h sv rhs :
  (vectorizable = true -> wf_traits) -> wf_view h sv -> wf_operand h rhs ->
  op_size h rhs = size sv ->
  exists h', operator_mult_assign sv rhs h = (h', inr tt) /\
             updated (multiplied h rhs) sv h h'.
Proof.
  intros Htr Hwf Hop Hsize. unfold operator_mult_assign, bind, gets, throw, modify, ret.
  rewrite Hsize, Z.eqb_refl. cbn [negb]. unfold size in Hsize.
  destruct rhs as [a|s|v|s].
  - destruct (op_canAlias (OpVector a) (vector_ sv)) eqn:Hal;
      cbn [IsSparseVector orb]; (eexists; split; [reflexivity|]).
    + apply (through_temporary multAssign mul); try assumption; try reflexivity.
      intros tmp T1 T2 T3 T4. apply multAssign_dense_updated; assumption.
    + apply multAssign_dense_updated; try assumption; reflexivity.
  - destruct (op_canAlias (OpSubvector s) (vector_ sv)) eqn:Hal;
      cbn [IsSparseVector orb]; (eexists; split; [reflexivity|]).
    + apply (through_temporary multAssign mul); try assumption; try reflexivity.
      intros tmp T1 T2 T3 T4. apply multAssign_dense_updated; assumption.
    + apply multAssign_dense_updated; try assumption; reflexivity.
  - eexists. split; [reflexivity|].
    apply multAssign_dense_updated; try assumption; reflexivity.
  - eexists. split; [reflexivity|].
    apply multAssign_sparse_updated; assumption.
Qed.

(** [operator=( const DenseSubvector& )] between views of one size. *)
Lemma operator_assign_copy_updated h sv s :
  (vectorizable = true -> wf_traits) -> wf_view h sv -> wf_view h s ->
  size s = size sv ->
  exists h', operator_assign_copy sv s h = (h', inr tt) /\
             updated (fun k _ => subscript h s k) sv h h'.
Proof.
  intros Htr Hwf Hs Hsize. unfold operator_assign_copy, bind, gets, throw, modify, ret.
  destruct (Nat.eqb (vector_ sv) (vector_ s) && (offset_ sv =? offset_ s)) eqn:Hsame.
  - apply andb_true_iff in Hsame. destruct Hsame as [Hv Ho].
    apply Nat.eqb_eq in Hv. apply Z.eqb_eq in Ho.
    exists h. split; [reflexivity|].
    eapply updated_ext_at; [|apply updated_id].
    intros k Hk. cbn beta. unfold subscript. rewrite <- Hv, <- Ho.
    destruct Hwf as (Hoff & Hn & Hle & Hvec & _). apply wf_vec_bounds in Hvec.
    rewrite sadd_small by lia. reflexivity.
  - rewrite Hsize, Z.eqb_refl. cbn [negb]. unfold size in Hsize.
    destruct (canAlias s (vector_ sv)) eqn:Hal; (eexists; split; [reflexivity|]).
    + apply (through_temporary assign (fun _ r => r) h sv (OpSubvector s));
        try assumption; try reflexivity.
      intros tmp T1 T2 T3 T4. apply assign_dense_updated; assumption.
    + apply (assign_dense_updated h sv (OpSubvector s)); try assumption; reflexivity.
Qed.

(** *** The reference implementation *)

Lemma naive_write_updated h sv (src : list T) :
  wf_view h sv ->
  updated (fun k _ => get src k) sv h (naive_write sv src h).
Proof.
  intros Hwf.
  pose proof Hwf as (Hoff & Hn & Hle & Hvec & _). apply wf_vec_bounds in Hvec.
  unfold naive_write, size, updated.
  assert (Hgen : forall m : nat, Z.of_nat m <= size_ sv ->
            progress (becomes (fun k _ => get src k)) sv h (Z.of_nat m)
              (fold_left (fun h i => subscript_write sv i (get src i) h)
                 (seqZ 0 (Z.of_nat m)) h)).
  { induction m as [|m IH]; intros Hm.
    - simpl. apply progress_start. exact Hn.
    - replace (Z.of_nat (S m)) with (Z.of_nat m + 1) by lia.
      rewrite seqZ_app by lia. rewrite fold_left_app.
      rewrite (seqZ_cons (0 + Z.of_nat m) 1) by lia. rewrite seqZ_nil by lia.
      cbn [fold_left]. rewrite Z.add_0_l.
      unfold subscript_write at 1. rewrite sadd_small by lia.
      apply heap_set_step; [exact Hwf | lia | apply IH; lia | reflexivity]. }
  specialize (Hgen (Z.to_nat (size_ sv))). rewrite Z2Nat.id in Hgen by lia.
  apply Hgen. lia.
Qed.

Lemma reference_assign_updated h sv rhs :
  wf_view h sv -> op_size h rhs = size sv ->
  updated (fun k _ => op_at h rhs k) sv h (reference_assign sv rhs h).
Proof.
  intros Hwf Hsize. unfold reference_assign, naive_copy.
  eapply updated_ext_at; [|apply naive_write_updated; exact Hwf].
  intros k Hk. cbn beta. rewrite Hsize. unfold size. apply get_fmap_seqZ. exact Hk.
Qed.

(** ** Construction and element access *)

Lemma ctor_in_range h (p : addr) index n :
  wf_vec (h p) -> 0 <= index -> 0 <= n -> index + n <= vsize (h p) ->
  0 < IT_size ->
  exists sv, DenseSubvector_ctor h p index n = inr sv /\
             vector_ sv = p /\ offset_ sv = index /\ size_ sv = n /\ wf_view h sv.
Proof.
  intros Hvec Hi Hn Hle Hw. pose proof (wf_vec_bounds _ Hvec) as Hb.
  unfold DenseSubvector_ctor. rewrite sadd_small by lia.
  destruct (Z.gtb_spec (index + n) (vsize (h p))) as [Hgt|_]; [lia|].
  eexists. split; [reflexivity|]. cbn [vector_ offset_ size_].
  split; [reflexivity|]. split; [reflexivity|]. split; [reflexivity|].
  unfold wf_view. cbn [vector_ offset_ size_].
  split; [exact Hi|]. split; [exact Hn|]. split; [exact Hle|]. split; [exact Hvec|].
  unfold DenseSubvector_ctor. rewrite sadd_small by lia.
  destruct (Z.gtb_spec (index + n) (vsize (h p))) as [Hgt|_]; [lia|]. reflexivity.
Qed.

(** C1: for every parent dense vector and every (offset, length) with
    offset + length <= parent.size(), the subvector view is constructed,
    its size is the length, reading view[i] for i < length returns
    parent[offset+i], and a write through view[i] is the write to
    parent[offset+i]. *)
Theorem subvector_size_and_access h (p : addr) index n :
  wf_vec (h p) -> 0 <= index -> 0 <= n -> index + n <= vsize (h p) ->
  exists sv, subvector h p index n = inr sv /\
    size sv = n /\
    (forall i, 0 <= i < n -> subscript h sv i = vec_get (h p) (index + i)) /\
    (forall i x, 0 <= i < n ->
       subscript_write sv i x h = heap_set h p (index + i) x /\
       vec_get (subscript_write sv i x h p) (index + i) = x /\
       subscript (subscript_write sv i x h) sv i = x).
Proof.
  intros Hvec Hi Hn Hle. pose proof (wf_vec_bounds _ Hvec) as Hb.
  unfold subvector, DenseSubvector_ctor. rewrite sadd_small by lia.
  destruct (Z.gtb_spec (index + n) (vsize (h p))) as [Hgt|_]; [lia|].
  eexists. split; [reflexivity|]. unfold size, subscript, subscript_write.
  cbn [vector_ offset_ size_]. split; [reflexivity|]. split.
  - intros i Hir. rewrite sadd_small by lia. reflexivity.
  - intros i x Hir. rewrite sadd_small by lia.
    split; [reflexivity|].
    rewrite heap_set_same. unfold vec_get. cbn [vdata].
    split; apply get_set_eq; lia.
Qed.

(** C2, as amended: over a dense vector, the construction of a view
    whose offset + length is a size_t value greater than parent.size()
    fails at once with std::invalid_argument; nothing is clamped, and no
    view is returned. *)
Theorem dense_subvector_range_error h (p : addr) index n :
  0 <= index -> 0 <= n -> index + n <= SIZE_MAX -> index + n > vsize (h p) ->
  subvector h p index n = inl (invalid_argument "Invalid subvector specification") /\
  DenseSubvector_ctor h p index n
  = inl (invalid_argument "Invalid subvector specification").
Proof.
  intros Hi Hn Hmax Hgt. unfold SIZE_MAX in Hmax. rewrite size_t_modulus_eq in Hmax.
  unfold subvector, DenseSubvector_ctor. rewrite sadd_small by lia.
  destruct (Z.gtb_spec (index + n) (vsize (h p))) as [_|Hle]; [|lia].
  split; reflexivity.
Qed.

(** C6: the alignment flag of a constructed view is true exactly when
    offset % vectorWidth == 0 and (offset + length == parentSize or
    length % vectorWidth == 0): with the sum as the constructor computes
    it, and with the exact sum whenever that is a size_t value; for
    vectorWidth == 1 the flag is true. *)
Theorem aligned_flag h (p : addr) index n sv :
  DenseSubvector_ctor h p index n = inr sv ->
  (aligned_ sv = true <->
     index mod IT_size = 0 /\ (sadd index n = vsize (h p) \/ n mod IT_size = 0)) /\
  (0 <= index + n <= SIZE_MAX ->
     (aligned_ sv = true <->
        index mod IT_size = 0 /\ (index + n = vsize (h p) \/ n mod IT_size = 0))) /\
  (IT_size = 1 -> aligned_ sv = true).
Proof.
  intros Hctor. unfold DenseSubvector_ctor in Hctor.
  destruct (sadd index n >? vsize (h p)); [discriminate|].
  injection Hctor as <-. cbn [aligned_].
  assert (Hiff : (index mod IT_size =? 0)
                 && ((sadd index n =? vsize (h p)) || (n mod IT_size =? 0)) = true <->
                 index mod IT_size = 0 /\
                 (sadd index n = vsize (h p) \/ n mod IT_size = 0)).
  { rewrite andb_true_iff, orb_true_iff, !Z.eqb_eq. reflexivity. }
  split; [exact Hiff|]. split.
  - intros Hsum. unfold SIZE_MAX in Hsum. rewrite size_t_modulus_eq in Hsum.
    rewrite sadd_small in Hiff by lia. rewrite sadd_small by lia. exact Hiff.
  - intros Hw. rewrite Hw, !Z.mod_1_r. cbn [Z.eqb andb]. apply orb_true_r.
Qed.

(** C8, as amended: a subvector of a view over a dense vector is the
    view the constructor builds over the same parent at the offset
    dv.offset + index with the given size: when the composed bound is
    within the parent it has that parent, that offset and that size, and
    when the composed bound is a size_t value greater than the size of the
    parent the construction fails with std::invalid_argument. *)
Theorem subvector_of_subvector_composes h dv index n :
  0 < IT_size -> wf_view h dv -> 0 <= index -> 0 <= n ->
  offset_ dv + index + n <= SIZE_MAX ->
  subvector_of_subvector h dv index n
  = subvector h (vector_ dv) (offset_ dv + index) n /\
  (offset_ dv + index + n <= vsize (h (vector_ dv)) ->
     exists r, subvector_of_subvector h dv index n = inr r /\
       vector_ r = vector_ dv /\ offset_ r = offset_ dv + index /\ size r = n /\
       (forall i, 0 <= i < n ->
          subscript h r i = vec_get (h (vector_ dv)) (offset_ dv + index + i))) /\
  (offset_ dv + index + n > vsize (h (vector_ dv)) ->
     subvector_of_subvector h dv index n
     = inl (invalid_argument "Invalid subvector specification")).
Proof.
  intros Hw Hwf Hi Hn Hmax. unfold SIZE_MAX in Hmax. rewrite size_t_modulus_eq in Hmax.
  pose proof Hwf as (Hoff & Hsz & Hle & Hvec & _).
  unfold subvector_of_subvector. rewrite (sadd_small (offset_ dv) index) by lia.
  split; [reflexivity|]. split.
  - intros Hin. pose proof (wf_vec_bounds _ Hvec) as Hb.
    destruct (ctor_in_range h (vector_ dv) (offset_ dv + index) n)
      as (r & Hr & Hp & Ho & Hs & _); try assumption; try lia.
    exists r. unfold subvector. split; [exact Hr|]. split; [exact Hp|].
    split; [exact Ho|]. split; [exact Hs|].
    intros i Hir. unfold subscript. rewrite Hp, Ho, sadd_small by lia. reflexivity.
  - intros Hout. unfold subvector, DenseSubvector_ctor. rewrite sadd_small by lia.
    destruct (Z.gtb_spec (offset_ dv + index + n) (vsize (h (vector_ dv)))) as [_|Hle'];
      [reflexivity|lia].
Qed.

(** ** Copy assignment of a view to itself *)

(** C9: copy assignment from a subvector with the same parent and the
    same offset, in particular of a view to itself, returns normally and
    leaves the store as it is. *)
Theorem copy_assign_same_view_noop h (this rhs : DenseSubvector) :
  vector_ this = vector_ rhs -> offset_ this = offset_ rhs ->
  operator_assign_copy this rhs h = (h, inr tt) /\
  operator_assign_copy this this h = (h, inr tt).
Proof.
  intros Hv Ho. unfold operator_assign_copy.
  rewrite Hv, Ho, !Nat.eqb_refl, !Z.eqb_refl. split; reflexivity.
Qed.

(** ** Size checks *)

(** The operators for general vectors signal a size mismatch before they
    write, and so does the copy assignment from a view with another parent
    or another offset. *)
Lemma size_mismatch_throws h sv rhs :
  size sv <> op_size h rhs ->
  operator_assign sv rhs h = (h, inl sizes_do_not_match) /\
  operator_add_assign sv rhs h = (h, inl sizes_do_not_match) /\
  operator_sub_assign sv rhs h = (h, inl sizes_do_not_match) /\
  operator_mult_assign sv rhs h = (h, inl sizes_do_not_match).
Proof.
  intros Hne. apply Z.eqb_neq in Hne.
  unfold operator_assign, operator_add_assign, operator_sub_assign,
    operator_mult_assign, bind, gets, throw.
  rewrite Hne. repeat split; reflexivity.
Qed.

Lemma copy_size_mismatch_throws h (this rhs : DenseSubvector) :
  vector_ this <> vector_ rhs \/ offset_ this <> offset_ rhs ->
  size this <> size rhs ->
  operator_assign_copy this rhs h
  = (h, inl (invalid_argument "Subvector sizes do not match")).
Proof.
  intros Hdiff Hne. apply Z.eqb_neq in Hne. unfold operator_assign_copy, throw.
  assert (Hg : Nat.eqb (vector_ this) (vector_ rhs) && (offset_ this =? offset_ rhs)
               = false).
  { apply andb_false_iff. destruct Hdiff as [Hd|Hd];
      [left; apply Nat.eqb_neq | right; apply Z.eqb_neq]; exact Hd. }
  rewrite Hg, Hne. reflexivity.
Qed.

(** ** Assignment and aliasing *)

Lemma subscript_updated g h sv h' i :
  wf_view h sv -> updated g sv h h' -> 0 <= i < size sv ->
  subscript h' sv i = g i (subscript h sv i).
Proof.
  intros (Hoff & Hn & Hle & Hvec & _) (_ & _ & _ & P4 & _) Hi.
  apply wf_vec_bounds in Hvec. unfold size in Hi. unfold subscript.
  rewrite sadd_small by lia. apply P4. lia.
Qed.

Lemma operator_assign_unfold h sv rhs :
  op_size h rhs = size sv ->
  operator_assign sv rhs h
  = (if op_canAlias rhs (vector_ sv)
     then assign sv (evaluate h rhs) h
     else assign sv rhs (if IsSparseVector rhs then reset sv h else h), inr tt).
Proof.
  intros Hsize. unfold operator_assign, bind, gets, throw, modify, ret.
  rewrite Hsize, Z.eqb_refl. cbn [negb].
  destruct (op_canAlias rhs (vector_ sv)); [reflexivity|].
  destruct (IsSparseVector rhs); reflexivity.
Qed.

(** C3: an assignment into a view from a source that can alias with the
    parent of the view first evaluates the source into a temporary of its
    own and assigns that; a source that cannot alias is read during the
    write loop.  Either way the vectors of the store end as the reference
    leaves them, which copies the source first and then writes the copy
    element by element; this also holds for the copy assignment from
    another view. *)
Theorem aliased_assignment_as_reference h sv rhs :
  wf_traits -> wf_view h sv -> wf_operand h rhs -> op_size h rhs = size sv ->
  exists h',
    operator_assign sv rhs h = (h', inr tt) /\
    same_vectors h' (reference_assign sv rhs h) /\
    (forall i, 0 <= i < size sv -> subscript h' sv i = op_at h rhs i) /\
    (op_canAlias rhs (vector_ sv) = true -> h' = assign sv (evaluate h rhs) h) /\
    (op_canAlias rhs (vector_ sv) = false ->
       h' = assign sv rhs (if IsSparseVector rhs then reset sv h else h)) /\
    (forall s, rhs = OpSubvector s ->
       exists h'', operator_assign_copy sv s h = (h'', inr tt) /\
                   same_vectors h'' (reference_assign sv rhs h)).
Proof.
  intros Htr Hwf Hop Hsize.
  destruct (operator_assign_updated h sv rhs (fun _ => Htr) Hwf Hop Hsize)
    as (h' & Hrun & Hup).
  pose proof (reference_assign_updated h sv rhs Hwf Hsize) as Href.
  exists h'. split; [exact Hrun|]. split.
  { exact (updated_same_vectors _ h sv _ _ Hwf Hup Href). }
  split.
  { intros i Hi. apply (subscript_updated _ h sv h' i Hwf Hup Hi). }
  rewrite (operator_assign_unfold h sv rhs Hsize) in Hrun.
  injection Hrun as Hrun. split; [|split].
  - intros Hal. rewrite Hal in Hrun. symmetry. exact Hrun.
  - intros Hal. rewrite Hal in Hrun. symmetry. exact Hrun.
  - intros s ->. cbn [wf_operand op_size] in Hop, Hsize.
    destruct (operator_assign_copy_updated h sv s (fun _ => Htr) Hwf Hop Hsize)
      as (h'' & Hrun' & Hup').
    exists h''. split; [exact Hrun'|].
    refine (updated_same_vectors _ h sv _ _ Hwf _ Href).
    eapply updated_ext; [|exact Hup']. reflexivity.
Qed.

(** C4: for a dense source of the size of the view that does not alias
    with it, the view reads back the source element by element after the
    default kernel and after the intrinsic kernel (on its streaming and on
    its blocked branch, with the partial last register), and the two
    kernels leave the same vectors in the store. *)
Theorem assign_paths_agree h sv rhs :
  wf_traits -> wf_view h sv -> IsSparseVector rhs = false -> wf_operand h rhs ->
  op_size h rhs = size sv -> op_canAlias rhs (vector_ sv) = false ->
  (forall i, 0 <= i < size sv ->
     subscript (assign_default sv rhs h) sv i = op_at h rhs i /\
     subscript (assign_vectorized sv rhs h) sv i = op_at h rhs i) /\
  same_vectors (assign_default sv rhs h) (assign_vectorized sv rhs h).
Proof.
  intros Htr Hwf Hd Hop Hsize Hno.
  assert (H1 : updated (fun k _ => op_at h rhs k) sv h (assign_default sv rhs h)).
  { unfold assign_default. apply (dense_default_updated (fun _ r => r)); assumption. }
  assert (H2 : updated (fun k _ => op_at h rhs k) sv h (assign_vectorized sv rhs h)).
  { apply assign_vectorized_updated; assumption. }
  split.
  - intros i Hi. split.
    + apply (subscript_updated _ h sv _ i Hwf H1 Hi).
    + apply (subscript_updated _ h sv _ i Hwf H2 Hi).
  - exact (updated_same_vectors _ h sv _ _ Hwf H1 H2).
Qed.

(** ** Multiplication by a sparse vector *)

Lemma find_stored (es : list (Z * T)) i x :
  NoDup (fst <$> es) -> (i, x) ∈ es ->
  List.find (fun e => fst e =? i) es = Some (i, x).
Proof.
  induction es as [|e es IH]; intros Hnd Hin.
  - apply elem_of_nil in Hin. destruct Hin.
  - rewrite fmap_cons in Hnd.
    pose proof (NoDup_cons_1_1 _ _ Hnd) as Hfresh. apply NoDup_cons_1_2 in Hnd.
    apply elem_of_cons in Hin. simpl. destruct Hin as [<-|Hin].
    + simpl. rewrite Z.eqb_refl. reflexivity.
    + destruct (Z.eqb_spec (fst e) i) as [Heq|Hne].
      * exfalso. apply Hfresh. rewrite Heq.
        apply (list_elem_of_fmap_2 fst es (i, x)). exact Hin.
      * apply IH; assumption.
Qed.

Lemma find_not_stored (es : list (Z * T)) i :
  i ∉ (fst <$> es) -> List.find (fun e => fst e =? i) es = None.
Proof.
  induction es as [|e es IH]; intros Hout; [reflexivity|].
  rewrite fmap_cons in Hout. apply not_elem_of_cons in Hout. destruct Hout as [Hne Hout].
  simpl. destruct (Z.eqb_spec (fst e) i) as [Heq|_]; [congruence|]. apply IH. exact Hout.
Qed.

(** The general part of C5. *)
Lemma sparse_mult_assign_general h sv s :
  wf_view h sv -> wf_sparse s -> sp_size s = size sv ->
  exists h',
    operator_mult_assign sv (OpSparse s) h = (h', inr tt) /\
    h' = (let tmp := mkVec (size sv) (subscript h sv <$> seqZ 0 (size sv)) in
          sparse_loop (fun i _ x => mul (vec_get tmp i) x) sv s (reset sv h)) /\
    (forall i x, (i, x) ∈ sp_elements s ->
       subscript h' sv i = mul (subscript h sv i) x) /\
    (forall i, 0 <= i < size sv -> i ∉ (fst <$> sp_elements s) ->
       subscript h' sv i = zero) /\
    frame sv h h'.
Proof.
  intros Hwf Hs Hsize.
  pose proof (multAssign_sparse_updated h sv s Hwf Hs Hsize) as Hup.
  exists (multAssign_sparse sv s h). split.
  { unfold operator_mult_assign, bind, gets, throw, modify, ret.
    cbn [op_size]. rewrite Hsize, Z.eqb_refl. cbn [negb IsSparseVector].
    rewrite orb_true_r. reflexivity. }
  split; [reflexivity|]. destruct Hs as (Hs0 & Hrange & Hnd). split; [|split].
  - intros i x Hin.
    assert (Hi : 0 <= i < size sv).
    { rewrite <- Hsize. apply (Hrange (i, x)). exact Hin. }
    rewrite (subscript_updated _ h sv _ i Hwf Hup Hi). unfold sparse_result.
    rewrite (find_stored _ i x Hnd Hin). reflexivity.
  - intros i Hi Hout.
    rewrite (subscript_updated _ h sv _ i Hwf Hup Hi). unfold sparse_result.
    rewrite (find_not_stored _ i Hout). reflexivity.
  - apply (updated_frame _ h sv _ Hup).
Qed.

(** ** The frame of the mutating operations *)

Lemma operator_frame (run : Heap * (exn + unit)) g h sv :
  (exists h', run = (h', inr tt) /\ updated g sv h h') -> frame sv h (fst run).
Proof.
  intros (h' & -> & Hup). apply (updated_frame _ h sv h' Hup).
Qed.

(** C10: every mutating operation on a view writes only elements of the
    parent at the indices [offset, offset+length): every element of every
    vector at another index below its size keeps its value.  This holds
    for the homogeneous assignment, reset and scale, for the assignment
    operators with a right-hand side of the size of the view, for the
    dense kernels (default and intrinsic) with any dense right-hand side,
    for the sparse kernels, and for a single storeu of the view: it writes
    its rest_ valid lanes only, or a whole register that stays within the
    view or runs from the end of the view into the padding of its
    parent. *)
Theorem mutations_write_within_view h sv :
  wf_traits -> wf_view h sv ->
  (forall x, frame sv h (operator_assign_value sv x h)) /\
  frame sv h (reset sv h) /\
  (forall c, frame sv h (scale sv c h)) /\
  (forall rhs, wf_operand h rhs -> op_size h rhs = size sv ->
     frame sv h (fst (operator_assign sv rhs h)) /\
     frame sv h (fst (operator_add_assign sv rhs h)) /\
     frame sv h (fst (operator_sub_assign sv rhs h)) /\
     frame sv h (fst (operator_mult_assign sv rhs h))) /\
  (forall s : DenseSubvector, wf_view h s -> size s = size sv ->
     frame sv h (fst (operator_assign_copy sv s h))) /\
  (forall rhs, IsSparseVector rhs = false ->
     frame sv h (assign_default sv rhs h) /\
     frame sv h (assign_vectorized sv rhs h) /\
     frame sv h (addAssign_default sv rhs h) /\
     frame sv h (addAssign_vectorized sv rhs h) /\
     frame sv h (subAssign_default sv rhs h) /\
     frame sv h (subAssign_vectorized sv rhs h) /\
     frame sv h (multAssign_default sv rhs h) /\
     frame sv h (multAssign_vectorized sv rhs h)) /\
  (forall s, wf_sparse s -> sp_size s = size sv ->
     frame sv h (assign_sparse sv s h) /\
     frame sv h (addAssign_sparse sv s h) /\
     frame sv h (subAssign_sparse sv s h) /\
     frame sv h (multAssign_sparse sv s h)) /\
  (forall i value, 0 <= i < size sv -> (IT_size | i) ->
     length value = Z.to_nat IT_size ->
     frame sv h (storeu sv i value h)).
Proof.
  intros Htr Hwf. pose proof (wf_traits_bounds Htr) as Hw.
  split. { intros x. eapply updated_frame. apply operator_assign_value_updated, Hwf. }
  split. { eapply updated_frame. apply reset_updated, Hwf. }
  split. { intros c. eapply updated_frame. apply scale_updated, Hwf. }
  split.
  { intros rhs Hop Hsize. split; [|split; [|split]].
    - eapply operator_frame, operator_assign_updated; auto.
    - eapply operator_frame, operator_add_assign_updated; auto.
    - eapply operator_frame, operator_sub_assign_updated; auto.
    - eapply operator_frame, operator_mult_assign_updated; auto. }
  split.
  { intros s Hs Hsize. eapply operator_frame, operator_assign_copy_updated; auto. }
  split.
  { intros rhs Hd. split; [|split; [|split; [|split; [|split; [|split; [|split]]]]]].
    - apply written_frame, dense_default_written, Hwf.
    - apply written_frame, assign_vectorized_written; assumption.
    - apply written_frame, dense_default_written, Hwf.
    - apply written_frame, compound_vectorized_written; assumption.
    - apply written_frame, dense_default_written, Hwf.
    - apply written_frame, compound_vectorized_written; assumption.
    - apply written_frame, dense_default_written, Hwf.
    - apply written_frame, compound_vectorized_written; assumption. }
  split.
  { intros s Hs Hsize. split; [|split; [|split]].
    - eapply updated_frame. apply (sparse_loop_updated (fun _ _ x => x)); assumption.
    - eapply updated_frame. apply (sparse_loop_updated (fun _ old x => add old x)); assumption.
    - eapply updated_frame. apply (sparse_loop_updated (fun _ old x => sub old x)); assumption.
    - eapply updated_frame. apply multAssign_sparse_updated; assumption. }
  intros i value Hi Hdiv Hlen.
  apply (progress_frame any_value h sv (i + IT_size)).
  apply view_storeu_step; try assumption.
  - apply progress_any_refl.
  - intros. exact I.
Qed.

End Proofs.

(** ** The model at work *)

Lemma scalar_traits_wf : @wf_traits scalar_traits.
Proof. exists 0. split; [lia | reflexivity]. Qed.

Lemma simd4_traits_wf : @wf_traits simd4_traits.
Proof. exists 2. split; [lia | reflexivity]. Qed.

Ltac compute_wf :=
  repeat match goal with
         | |- _ /\ _ => split
         | |- _ <= _ => vm_compute; congruence
         | |- _ < _ => vm_compute; congruence
         | |- _ = _ => vm_compute; reflexivity
         | |- wf_view _ _ => unfold wf_view
         | |- wf_vec _ => unfold wf_vec
         | |- wf_operand _ _ => unfold wf_operand
         end.

(** The end-to-end scenario of the specification: the view of four
    elements from index 3 of the parent 0..9 reads 3, 4, 5, 6, and adding
    10 to each of its elements changes the parent at the indices 3 to 6
    only. *)
Example end_to_end_scenario :
  let h := single_heap parent10 in
  let view := view_of (traits := scalar_traits) h 0%nat 3 4 in
  subvector (traits := scalar_traits) h 0%nat 3 4 = inr view /\
  size view = 4 /\
  subscript h view <$> seqZ 0 4 = [3; 4; 5; 6] /\
  (let r := operator_add_assign (traits := scalar_traits) view
              (OpTemp (vec_of [10; 10; 10; 10])) h in
   snd r = inr tt /\ contents (fst r) 0%nat = [0; 1; 2; 13; 14; 15; 16; 7; 8; 9]).
Proof. vm_compute. repeat split; reflexivity. Qed.

(** The same scenario through the intrinsic kernel. *)
Example end_to_end_scenario_intrinsic :
  let h := single_heap padded10 in
  let view := view_of (traits := simd4_traits) h 0%nat 3 4 in
  let r := operator_add_assign (traits := simd4_traits) view
             (OpTemp (vec_of [10; 10; 10; 10])) h in
  snd r = inr tt /\ contents (fst r) 0%nat = [0; 1; 2; 13; 14; 15; 16; 7; 8; 9].
Proof. vm_compute. split; reflexivity. Qed.

(** Why the operators evaluate an aliasing source first: the write loop run
    on the overlapping source itself reads elements it has already
    written. *)
Example overlapping_views_need_the_temporary :
  let h := single_heap parent10 in
  let target := view_of (traits := scalar_traits) h 0%nat 2 5 in
  let source := view_of (traits := scalar_traits) h 0%nat 0 5 in
  contents (fst (operator_assign_copy (traits := scalar_traits) target source h)) 0%nat
  = [0; 1; 0; 1; 2; 3; 4; 7; 8; 9] /\
  contents (assign_default target (OpSubvector source) h) 0%nat
  = [0; 1; 0; 1; 0; 1; 0; 7; 8; 9].
Proof. vm_compute. split; reflexivity. Qed.

(** A sum offset + length that wraps around in size_t passes the check of
    the constructor. *)
Example wrapped_sum_passes_the_check :
  exists sv, subvector (traits := scalar_traits) (single_heap parent10) 0%nat SIZE_MAX 2
             = inr sv /\ offset_ sv = SIZE_MAX /\ size sv = 2.
Proof. eexists. vm_compute. repeat split; reflexivity. Qed.

(** The witness of C1: the view of four elements from index 3. *)
Lemma subvector_size_and_access_witness :
  exists sv, subvector (traits := simd4_traits) (single_heap padded10) 0%nat 3 4 = inr sv /\
    size sv = 4 /\ subscript (single_heap padded10) sv 2 = 5.
Proof.
  destruct (subvector_size_and_access (traits := simd4_traits)
              (single_heap padded10) 0%nat 3 4)
    as (sv & Hsv & Hsize & Hread & _); [compute_wf | lia | lia | vm_compute; congruence |].
  exists sv. split; [exact Hsv|]. split; [exact Hsize|].
  rewrite Hread by lia. reflexivity.
Defined.

(** The counterexample to C2 as stated: over a cross product of three
    elements, the view of five elements from index 2 is constructed; no
    range error is signalled. *)
Lemma cross_subvector_unchecked :
  2 + 5 > cross_size cross3 /\
  subvector_of_cross cross3 2 5 = inr (mkCrossSubvector cross3 2 5).
Proof. split; reflexivity. Qed.

(** The witness of C2 as amended: five elements from index 8 of ten. *)
Lemma dense_subvector_range_error_witness :
  subvector (traits := scalar_traits) (single_heap parent10) 0%nat 8 5
  = inl (invalid_argument "Invalid subvector specification").
Proof.
  apply (dense_subvector_range_error (traits := scalar_traits)
           (single_heap parent10) 0%nat 8 5);
    [lia | lia | vm_compute; congruence | vm_compute; reflexivity].
Defined.

(** The witness of C6: six elements from index 4 of ten reach the end of the
    parent. *)
Lemma aligned_flag_witness :
  aligned_ (view_of (traits := simd4_traits) (single_heap padded10) 0%nat 4 6) = true <->
  4 mod 4 = 0 /\ (4 + 6 = 10 \/ 6 mod 4 = 0).
Proof.
  apply (aligned_flag (traits := simd4_traits) (single_heap padded10) 0%nat 4 6);
    [vm_compute; reflexivity | split; vm_compute; congruence].
Defined.

(** The counterexample to C8 as stated: a subvector of a view over a cross
    product of three elements is constructed beyond the three elements; the
    composed bound is not validated. *)
Lemma cross_subvector_of_subvector_unchecked :
  coffset_ (mkCrossSubvector cross3 0 3) + 2 + 5 > cross_size cross3 /\
  subvector_of_cross_subvector (mkCrossSubvector cross3 0 3) 2 5
  = inr (mkCrossSubvector cross3 2 5).
Proof. split; reflexivity. Qed.

(** The witness of C8 as amended: the subvector of five elements from index
    1 of the view of ten elements from index 2 of a parent of twelve. *)
Lemma subvector_of_subvector_composes_witness :
  let h := single_heap (vec_of [0; 1; 2; 3; 4; 5; 6; 7; 8; 9; 10; 11]) in
  let dv := view_of (traits := simd4_traits) h 0%nat 2 10 in
  exists r, subvector_of_subvector (traits := simd4_traits) h dv 1 5 = inr r /\
    vector_ r = vector_ dv /\ offset_ r = 3 /\ size r = 5.
Proof.
  intros h dv.
  destruct (subvector_of_subvector_composes (traits := simd4_traits) h dv 1 5)
    as (_ & Hin & _);
    [reflexivity | subst h dv; compute_wf | lia | lia | vm_compute; congruence |].
  destruct Hin as (r & Hr & Hv & Ho & Hs & _); [vm_compute; congruence|].
  exists r. split; [exact Hr|]. split; [exact Hv|]. split; [|exact Hs].
  rewrite Ho. reflexivity.
Defined.

(** The witness of C9: the view of four elements from index 3 assigned to
    itself. *)
Lemma copy_assign_same_view_noop_witness :
  let h := single_heap parent10 in
  let v := view_of (traits := scalar_traits) h 0%nat 3 4 in
  operator_assign_copy (traits := scalar_traits) v v h = (h, inr tt).
Proof.
  intros h v.
  apply (copy_assign_same_view_noop (traits := scalar_traits) h v v); reflexivity.
Defined.

(** The witness of C3: the view of the first five elements assigned from
    the view of five elements from index 2 of the same parent. *)
Lemma aliased_assignment_as_reference_witness :
  let h := single_heap padded10 in
  let target := view_of (traits := simd4_traits) h 0%nat 0 5 in
  let source := OpSubvector (view_of (traits := simd4_traits) h 0%nat 2 5) in
  exists h', operator_assign (traits := simd4_traits) target source h = (h', inr tt) /\
    same_vectors h' (reference_assign target source h) /\
    contents h' 0%nat = [2; 3; 4; 5; 6; 5; 6; 7; 8; 9].
Proof.
  intros h target source.
  destruct (aliased_assignment_as_reference (traits := simd4_traits) h target source)
    as (h' & Hrun & Hsame & _);
    [exact simd4_traits_wf | subst h target; compute_wf | subst h source; compute_wf
    | reflexivity |].
  exists h'. split; [exact Hrun|]. split; [exact Hsame|].
  replace h' with (fst (operator_assign (traits := simd4_traits) target source h))
    by (rewrite Hrun; reflexivity).
  vm_compute. reflexivity.
Defined.

(** The witness of C4: seven elements assigned from index 1 on, the last
    three through a partial register. *)
Lemma assign_paths_agree_witness :
  let h := two_heap padded10 (padded_vec_of [10; 11; 12; 13; 14; 15; 16] 8) in
  let view := view_of (traits := simd4_traits) h 0%nat 1 7 in
  same_vectors (assign_default view (OpVector 1%nat) h)
    (assign_vectorized (traits := simd4_traits) view (OpVector 1%nat) h) /\
  contents (assign_vectorized (traits := simd4_traits) view (OpVector 1%nat) h) 0%nat
  = [0; 10; 11; 12; 13; 14; 15; 16; 8; 9].
Proof.
  intros h view. split; [|vm_compute; reflexivity].
  apply (assign_paths_agree (traits := simd4_traits) h view (OpVector 1%nat));
    [exact simd4_traits_wf | subst h view; compute_wf | reflexivity
    | subst h; compute_wf | reflexivity | reflexivity].
Defined.

(** The streaming branch of the intrinsic kernel at work: the aligned view
    of six elements that ends where its parent ends. *)
Example assign_streaming_branch :
  let h := two_heap padded10 (padded_vec_of [10; 11; 12; 13; 14; 15] 8) in
  let view := view_of (traits := streaming_traits) h 0%nat 4 6 in
  (@useStreaming streaming_traits && aligned_ view
   && (size_ view >? @cacheSize streaming_traits
                     / smul (@sizeof_ElementType streaming_traits) 3)
   && negb (op_isAliased (T := Z) (OpVector 1%nat) (vector_ view))) = true /\
  contents (assign_vectorized (traits := streaming_traits) view (OpVector 1%nat) h) 0%nat
  = [0; 1; 2; 3; 10; 11; 12; 13; 14; 15].
Proof. vm_compute. split; reflexivity. Qed.

(** C5: multiplication assignment of a sparse vector of the size of the
    view takes a snapshot of the view, resets the view and writes, for each
    element the sparse vector stores, the product of the snapshot and the
    stored value: a position the sparse vector stores becomes its old value
    times the stored value, every other position of the view becomes the
    default value, and nothing outside the view changes.  The view 1, 2, 3,
    4 multiplied by the sparse vector that stores 5 at index 1 becomes 0,
    10, 0, 0. *)
Theorem sparse_multiply_assign :
  (forall (T : Type) (elt : Element T) (traits : IntrinsicTrait) (h : @Heap T)
          (sv : DenseSubvector) (s : @SparseVector T),
     wf_view h sv -> wf_sparse s -> sp_size s = size sv ->
     exists h',
       operator_mult_assign sv (OpSparse s) h = (h', inr tt) /\
       h' = (let tmp := mkVec (size sv) (subscript h sv <$> seqZ 0 (size sv)) in
             sparse_loop (fun i _ x => mul (vec_get tmp i) x) sv s (reset sv h)) /\
       (forall i x, (i, x) ∈ sp_elements s ->
          subscript h' sv i = mul (subscript h sv i) x) /\
       (forall i, 0 <= i < size sv -> i ∉ (fst <$> sp_elements s) ->
          subscript h' sv i = zero) /\
       frame sv h h') /\
  (let h := single_heap (vec_of [1; 2; 3; 4]) in
   let view := view_of (traits := scalar_traits) h 0%nat 0 4 in
   let r := operator_mult_assign (traits := scalar_traits) view
              (OpSparse (mkSparseVector 4 [(1, 5)])) h in
   subscript h view <$> seqZ 0 4 = [1; 2; 3; 4] /\
   snd r = inr tt /\
   subscript (fst r) view <$> seqZ 0 4 = [0; 10; 0; 0]).
Proof.
  split; [exact @sparse_mult_assign_general|].
  vm_compute. repeat split; reflexivity.
Qed.

(** The witness of C5: the view of four elements from index 1 of the parent
    0..9 multiplied by the sparse vector that stores 2 at index 0 and 3 at
    index 3. *)
Lemma sparse_multiply_assign_witness :
  let h := single_heap padded10 in
  let view := view_of (traits := simd4_traits) h 0%nat 1 4 in
  let s := mkSparseVector 4 [(0, 2); (3, 3)] in
  exists h', operator_mult_assign (traits := simd4_traits) view (OpSparse s) h
             = (h', inr tt) /\
    subscript h' view 0 = 2 /\ subscript h' view 1 = 0 /\ frame view h h'.
Proof.
  intros h view s.
  destruct (proj1 sparse_multiply_assign Z Z_Element simd4_traits h view s)
    as (h' & Hrun & _ & Hin & Hout & Hframe);
    [subst h view; compute_wf | | reflexivity |].
  { split; [vm_compute; congruence|]. split.
    - intros e He. apply elem_of_cons in He. destruct He as [->|He];
        [vm_compute; split; congruence|].
      apply elem_of_cons in He. destruct He as [->|He];
        [vm_compute; split; congruence|].
      apply elem_of_nil in He. destruct He.
    - apply NoDup_cons_2; [|apply NoDup_cons_2; [|apply NoDup_nil_2]].
      + intros He. apply elem_of_cons in He. destruct He as [He|He]; [discriminate|].
        apply elem_of_nil in He. exact He.
      + intros He. apply elem_of_nil in He. exact He. }
  exists h'. split; [exact Hrun|]. split; [|split; [|exact Hframe]].
  - rewrite (Hin 0 2) by (left). reflexivity.
  - apply Hout; [vm_compute; split; congruence|].
    intros He. apply elem_of_cons in He. destruct He as [He|He]; [discriminate|].
    apply elem_of_cons in He. destruct He as [He|He]; [discriminate|].
    apply elem_of_nil in He. exact He.
Defined.

(** C7, where the code departs from it: the copy assignment between two
    views of one parent with the same offset and different sizes returns
    normally; no size mismatch is signalled.  The store is left as it
    is. *)
Theorem copy_assign_misses_size_check :
  let h := single_heap (vec_of [1; 2; 3; 4; 5]) in
  let this := view_of (traits := scalar_traits) h 0%nat 0 4 in
  let rhs := view_of (traits := scalar_traits) h 0%nat 0 2 in
  subvector (traits := scalar_traits) h 0%nat 0 4 = inr this /\
  subvector (traits := scalar_traits) h 0%nat 0 2 = inr rhs /\
  size this <> size rhs /\
  operator_assign_copy (traits := scalar_traits) this rhs h = (h, inr tt).
Proof.
  cbv zeta. split; [reflexivity|]. split; [reflexivity|]. split; [|reflexivity].
  vm_compute. discriminate.
Qed.

(** The witness of C10: the reset of the unaligned view of seven elements
    from index 1, and one intrinsic store of its partial last register. *)
Lemma mutations_write_within_view_witness :
  let h := single_heap padded10 in
  let view := view_of (traits := simd4_traits) h 0%nat 1 7 in
  frame view h (reset view h) /\
  frame view h (storeu view 4 [40; 41; 42; 43] h) /\
  contents (storeu view 4 [40; 41; 42; 43] h) 0%nat = [0; 1; 2; 3; 4; 40; 41; 42; 8; 9].
Proof.
  intros h view.
  destruct (mutations_write_within_view (traits := simd4_traits) h view)
    as (_ & Hreset & _ & _ & _ & _ & _ & Hstoreu);
    [exact simd4_traits_wf | subst h view; compute_wf |].
  split; [exact Hreset|]. split; [|vm_compute; reflexivity].
  apply Hstoreu; [vm_compute; split; congruence | exists 1; reflexivity | reflexivity].
Defined.

(** ** Further properties of the view

    The operators and members the properties above leave out: the compound
    assignments element by element, the homogeneous assignment, the
    scaling, the size checks, the intrinsic access, the members the
    constructor caches, nested views, capacity, default state and
    iterators. *)

Section Properties.
Context {T : Type} {elt : Element T} {shim : DefaultShim T} {traits : IntrinsicTrait}.

Implicit Types (h : @Heap T) (sv dv : DenseSubvector) (rhs : @Operand T).

(** X1: for a dense right-hand side of the size of the view, the operators
    +=, -= and *= return normally and leave at every index i of the view
    the old element combined with element i of the right-hand side as it
    was before the call, also when the right-hand side is a vector or a
    view that overlaps the target. *)
Theorem dense_compound_assignment h sv rhs :
  (vectorizable = true -> wf_traits) -> wf_view h sv -> IsSparseVector rhs = false ->
  wf_operand h rhs -> op_size h rhs = size sv ->
  exists ha hs hm,
    operator_add_assign sv rhs h = (ha, inr tt) /\
    operator_sub_assign sv rhs h = (hs, inr tt) /\
    operator_mult_assign sv rhs h = (hm, inr tt) /\
    (forall i, 0 <= i < size sv ->
       subscript ha sv i = add (subscript h sv i) (op_at h rhs i) /\
       subscript hs sv i = sub (subscript h sv i) (op_at h rhs i) /\
       subscript hm sv i = mul (subscript h sv i) (op_at h rhs i)).
Proof.
  intros Htr Hwf Hdense Hop Hsize.
  destruct (operator_add_assign_updated h sv rhs Htr Hwf Hop Hsize) as (ha & Ha & Hua).
  destruct (operator_sub_assign_updated h sv rhs Htr Hwf Hop Hsize) as (hs & Hs & Hus).
  destruct (operator_mult_assign_updated h sv rhs Htr Hwf Hop Hsize) as (hm & Hm & Hum).
  exists ha, hs, hm. split; [exact Ha|]. split; [exact Hs|]. split; [exact Hm|].
  intros i Hi.
  rewrite (subscript_updated _ h sv ha i Hwf Hua Hi).
  rewrite (subscript_updated _ h sv hs i Hwf Hus Hi).
  rewrite (subscript_updated _ h sv hm i Hwf Hum Hi).
  unfold combined, multiplied.
  destruct rhs; try discriminate; repeat split; reflexivity.
Qed.

(** X2: for a sparse right-hand side of the size of the view, the
    operators += and -= return normally, combine every element the sparse
    vector stores with the element of the view at its index, and leave
    every other element of the view as it is. *)
Theorem sparse_compound_assignment h sv (s : @SparseVector T) :
  wf_view h sv -> wf_sparse s -> sp_size s = size sv ->
  exists ha hs,
    operator_add_assign sv (OpSparse s) h = (ha, inr tt) /\
    operator_sub_assign sv (OpSparse s) h = (hs, inr tt) /\
    (forall i x, (i, x) ∈ sp_elements s ->
       subscript ha sv i = add (subscript h sv i) x /\
       subscript hs sv i = sub (subscript h sv i) x) /\
    (forall i, 0 <= i < size sv -> i ∉ (fst <$> sp_elements s) ->
       subscript ha sv i = subscript h sv i /\
       subscript hs sv i = subscript h sv i).
Proof.
  intros Hwf Hs Hsize.
  pose proof (sparse_loop_updated (fun _ old x => add old x) h sv s Hwf Hs Hsize) as Hua.
  pose proof (sparse_loop_updated (fun _ old x => sub old x) h sv s Hwf Hs Hsize) as Hus.
  exists (addAssign_sparse sv s h), (subAssign_sparse sv s h).
  split; [|split].
  { unfold operator_add_assign, bind, gets, throw, modify, ret.
    cbn [op_size]. rewrite Hsize, Z.eqb_refl. reflexivity. }
  { unfold operator_sub_assign, bind, gets, throw, modify, ret.
    cbn [op_size]. rewrite Hsize, Z.eqb_refl. reflexivity. }
  destruct Hs as (Hs0 & Hrange & Hnd). split.
  - intros i x Hin.
    assert (Hi : 0 <= i < size sv).
    { rewrite <- Hsize. apply (Hrange (i, x)). exact Hin. }
    unfold addAssign_sparse, subAssign_sparse.
    rewrite (subscript_updated _ h sv _ i Hwf Hua Hi).
    rewrite (subscript_updated _ h sv _ i Hwf Hus Hi).
    unfold sparse_result. rewrite (find_stored _ i x Hnd Hin). split; reflexivity.
  - intros i Hi Hout.
    unfold addAssign_sparse, subAssign_sparse.
    rewrite (subscript_updated _ h sv _ i Hwf Hua Hi).
    rewrite (subscript_updated _ h sv _ i Hwf Hus Hi).
    unfold sparse_result. rewrite (find_not_stored _ i Hout). split; reflexivity.
Qed.

(** X3: the homogeneous assignment of a value leaves that value at every
    index of the view, whatever the view held; reset() is the homogeneous
    assignment of the default value, and so are the free functions reset
    and clear. *)
Theorem homogeneous_assignment h sv (x : T) :
  wf_view h sv ->
  (forall i, 0 <= i < size sv -> subscript (operator_assign_value sv x h) sv i = x) /\
  (forall i, 0 <= i < size sv -> subscript (reset sv h) sv i = zero) /\
  reset sv h = operator_assign_value sv zero h /\
  reset_subvector sv h = reset sv h /\ clear sv h = reset sv h.
Proof.
  intros Hwf. split; [|split; [|repeat split]].
  - intros i Hi.
    apply (subscript_updated _ h sv _ i Hwf (operator_assign_value_updated h sv x Hwf) Hi).
  - intros i Hi.
    apply (subscript_updated _ h sv _ i Hwf (reset_updated h sv Hwf) Hi).
Qed.

(** X4: scale( scalar ) multiplies every element of the view by the scalar
    from the right, and scaling twice multiplies by the first scalar and
    then by the second. *)
Theorem scale_multiplies h sv (c1 c2 : T) :
  wf_view h sv ->
  forall i, 0 <= i < size sv ->
    subscript (scale sv c1 h) sv i = mul (subscript h sv i) c1 /\
    subscript (scale sv c2 (scale sv c1 h)) sv i = mul (mul (subscript h sv i) c1) c2.
Proof.
  intros Hwf i Hi.
  pose proof (scale_updated h sv c1 Hwf) as H1.
  pose proof (wf_view_preserved _ h sv _ _ H1 Hwf) as Hwf1.
  pose proof (scale_updated (scale sv c1 h) sv c2 Hwf1) as H2.
  rewrite (subscript_updated _ _ sv _ i Hwf1 H2 Hi).
  rewrite (subscript_updated _ h sv _ i Hwf H1 Hi). split; reflexivity.
Qed.

(** X5: when the size of the right-hand side differs from the size of the
    view, each of the operators =, +=, -= and *= on a vector throws
    std::invalid_argument and the store is the one before the call; the
    copy assignment does the same for a source view that differs from the
    target in its parent or its offset. *)
Theorem size_mismatch_is_reported h sv rhs :
  size sv <> op_size h rhs ->
  operator_assign sv rhs h = (h, inl (invalid_argument "Vector sizes do not match")) /\
  operator_add_assign sv rhs h = (h, inl (invalid_argument "Vector sizes do not match")) /\
  operator_sub_assign sv rhs h = (h, inl (invalid_argument "Vector sizes do not match")) /\
  operator_mult_assign sv rhs h = (h, inl (invalid_argument "Vector sizes do not match")) /\
  (forall s, rhs = OpSubvector s ->
     vector_ sv <> vector_ s \/ offset_ sv <> offset_ s ->
     operator_assign_copy sv s h
     = (h, inl (invalid_argument "Subvector sizes do not match"))).
Proof.
  intros Hne.
  destruct (size_mismatch_throws h sv rhs Hne) as (H1 & H2 & H3 & H4).
  split; [exact H1|]. split; [exact H2|]. split; [exact H3|]. split; [exact H4|].
  intros s -> Hdiff. apply copy_size_mismatch_throws; assumption.
Qed.

(** [sadd] is associative: both sides are the sum modulo 2^64. *)
Lemma sadd_assoc a b c : sadd (sadd a b) c = sadd a (sadd b c).
Proof.
  unfold sadd, wrap. rewrite Z.add_mod_idemp_l, Z.add_mod_idemp_r
    by (rewrite size_t_modulus_eq; lia).
  rewrite Z.add_assoc. reflexivity.
Qed.

(** X6: for a dense right-hand side of the size of the view that does not
    alias its parent, the default kernel and the intrinsic kernel of
    addAssign, of subAssign and of multAssign leave the same vectors
    behind: at every index the old element combined with the element of
    the right-hand side. *)
Theorem compound_kernels_agree h sv rhs :
  wf_traits -> wf_view h sv -> IsSparseVector rhs = false -> wf_operand h rhs ->
  op_size h rhs = size sv -> op_canAlias rhs (vector_ sv) = false ->
  same_vectors (addAssign_default sv rhs h) (addAssign_vectorized sv rhs h) /\
  same_vectors (subAssign_default sv rhs h) (subAssign_vectorized sv rhs h) /\
  same_vectors (multAssign_default sv rhs h) (multAssign_vectorized sv rhs h) /\
  (forall i, 0 <= i < size sv ->
     subscript (addAssign_vectorized sv rhs h) sv i
     = add (subscript h sv i) (op_at h rhs i) /\
     subscript (subAssign_vectorized sv rhs h) sv i
     = sub (subscript h sv i) (op_at h rhs i) /\
     subscript (multAssign_vectorized sv rhs h) sv i
     = mul (subscript h sv i) (op_at h rhs i)).
Proof.
  intros Htr Hwf Hdense Hop Hsize Hno.
  assert (Hd : forall f, updated (fun k old => f old (op_at h rhs k)) sv h
                           (dense_default f sv rhs h)).
  { intros f. apply dense_default_updated; assumption. }
  assert (Hv : forall f, updated (fun k old => f old (op_at h rhs k)) sv h
                           (intrinsic_loops (compound_value f sv rhs) sv h)).
  { intros f. apply compound_vectorized_updated; assumption. }
  unfold addAssign_default, subAssign_default, multAssign_default,
    addAssign_vectorized, subAssign_vectorized, multAssign_vectorized.
  split; [|split; [|split]].
  - exact (updated_same_vectors _ h sv _ _ Hwf (Hd add) (Hv add)).
  - exact (updated_same_vectors _ h sv _ _ Hwf (Hd sub) (Hv sub)).
  - exact (updated_same_vectors _ h sv _ _ Hwf (Hd mul) (Hv mul)).
  - intros i Hi.
    rewrite (subscript_updated _ h sv _ i Hwf (Hv add) Hi).
    rewrite (subscript_updated _ h sv _ i Hwf (Hv sub) Hi).
    rewrite (subscript_updated _ h sv _ i Hwf (Hv mul) Hi).
    repeat split; reflexivity.
Qed.

(** X7: a register stored through the view at a register boundary i below
    its size is the register loaded from i afterwards, in every lane that
    lies within the view; this holds for storeu and loadu, and for store,
    stream and load, which forward to them. *)
Theorem storeu_loadu_round_trip h sv i (value : @IntrinsicType T) :
  wf_traits -> wf_view h sv -> (IT_size | i) -> 0 <= i < size sv ->
  length value = Z.to_nat IT_size ->
  forall j, 0 <= j < IT_size -> i + j < size sv ->
    lane (loadu (storeu sv i value h) sv i) j = lane value j /\
    lane (load (store sv i value h) sv i) j = lane value j /\
    lane (load (stream sv i value h) sv i) j = lane value j.
Proof.
  intros Htr Hwf Hdiv Hi Hlen j Hj Hin.
  pose proof (wf_traits_bounds Htr) as Hw. unfold size in *.
  set (R := fun (k : Z) (_ new : T) => i <= k -> new = lane value (k - i)).
  assert (Hstart : progress R sv h i h).
  { unfold progress, R. repeat split; try reflexivity; intros; lia. }
  assert (Hstep : progress R sv h (i + IT_size) (storeu sv i value h)).
  { apply view_storeu_step; try assumption.
    intros j' Hj' Hin'. unfold R. intros _. f_equal. lia. }
  assert (Hread : lane (loadu (storeu sv i value h) sv i) j = lane value j).
  { rewrite (lane_loadu h _ sv i j) by (try assumption; lia).
    destruct Hstep as (_ & _ & _ & Hval & _).
    specialize (Hval (i + j)). unfold R in Hval.
    rewrite Hval by lia. f_equal. lia. }
  unfold load, store, stream. repeat split; exact Hread.
Qed.

(** X8: the view the constructor returns refers to the given parent with
    the given offset and size, and caches the split of its size at the
    last register boundary: rest_ is size % IT::size, final_ is a multiple
    of IT::size, and final_ + rest_ is the size. *)
Theorem constructor_caches_register_split h (p : addr) index n sv :
  0 < IT_size -> 0 <= n <= SIZE_MAX ->
  DenseSubvector_ctor h p index n = inr sv ->
  vector_ sv = p /\ offset_ sv = index /\ size sv = n /\
  rest_ sv = n mod IT_size /\ 0 <= rest_ sv < IT_size /\
  final_ sv + rest_ sv = n /\ (IT_size | final_ sv) /\ 0 <= final_ sv <= n /\
  sadd index n <= vsize (h p).
Proof.
  intros Hw Hn Hctor. unfold SIZE_MAX in Hn. rewrite size_t_modulus_eq in Hn.
  unfold DenseSubvector_ctor in Hctor.
  destruct (Z.gtb_spec (sadd index n) (vsize (h p))) as [|Hle]; [discriminate|].
  injection Hctor as <-. unfold size. cbn [vector_ offset_ size_ rest_ final_].
  pose proof (Z.mod_pos_bound n IT_size Hw) as Hr.
  pose proof (Z.mod_le n IT_size ltac:(lia) Hw) as Hrle.
  rewrite ssub_small by lia.
  split; [reflexivity|]. split; [reflexivity|]. split; [reflexivity|].
  split; [reflexivity|]. split; [exact Hr|]. split; [lia|].
  split; [apply divide_final; exact Hw|]. split; [lia|exact Hle].
Qed.

(** X9: a subvector of a view dv that lies within the parent of dv is
    constructed, whether or not it lies within dv itself, and its element
    i is element index + i of dv, for reading and for writing. *)
Theorem nested_subvector_reads_outer h dv index n :
  0 < IT_size -> wf_view h dv -> 0 <= index -> 0 <= n ->
  offset_ dv + index + n <= vsize (h (vector_ dv)) ->
  exists r, subvector_of_subvector h dv index n = inr r /\ size r = n /\
    wf_view h r /\
    (forall i, 0 <= i < n ->
       subscript h r i = subscript h dv (index + i) /\
       (forall x, subscript_write r i x h = subscript_write dv (index + i) x h)).
Proof.
  intros Hw Hwf Hi Hn Hin.
  pose proof Hwf as (Hoff & Hsz & Hle & Hvec & _).
  pose proof (wf_vec_bounds _ Hvec) as Hb.
  destruct (ctor_in_range h (vector_ dv) (offset_ dv + index) n)
    as (r & Hr & Hp & Ho & Hs & Hwfr); try assumption; try lia.
  exists r. unfold subvector_of_subvector. rewrite sadd_small by lia.
  split; [exact Hr|]. split; [exact Hs|]. split; [exact Hwfr|].
  intros i Hir. unfold subscript, subscript_write. rewrite Hp, Ho.
  rewrite !sadd_small by lia. rewrite Z.add_assoc. split; [reflexivity|].
  intros x. reflexivity.
Qed.

(** X10: nesting flattens: a subvector at index b of the subvector at
    index a of a view is the subvector at index a + b of that view: the
    same view or the same error. *)
Theorem nested_subvector_flattens h dv a m b n r :
  subvector_of_subvector h dv a m = inr r ->
  subvector_of_subvector h r b n = subvector_of_subvector h dv (sadd a b) n.
Proof.
  intros Hr. unfold subvector_of_subvector, DenseSubvector_ctor in Hr.
  destruct (sadd (sadd (offset_ dv) a) m >? vsize (h (vector_ dv))); [discriminate|].
  injection Hr as <-. unfold subvector_of_subvector. cbn [vector_ offset_].
  rewrite sadd_assoc. reflexivity.
Qed.

(** X11: the bound the constructor checks is the size_t sum of offset and
    size: when the exact sum exceeds SIZE_MAX and the wrapped sum is
    within the size of the parent, the view is constructed, with the given
    offset and size, although it does not lie within the parent. *)
Theorem constructor_accepts_wrapped_sum h (p : addr) index n :
  0 <= index <= SIZE_MAX -> 0 <= n <= SIZE_MAX -> index + n > SIZE_MAX ->
  index + n - size_t_modulus <= vsize (h p) ->
  exists sv, subvector h p index n = inr sv /\ offset_ sv = index /\ size sv = n.
Proof.
  unfold SIZE_MAX. rewrite size_t_modulus_eq. intros Hi Hn Hsum Hle.
  unfold subvector, DenseSubvector_ctor.
  assert (Hwrap : sadd index n = index + n - 18446744073709551616).
  { unfold sadd, wrap. rewrite size_t_modulus_eq. mlia. }
  rewrite Hwrap.
  destruct (Z.gtb_spec (index + n - 18446744073709551616) (vsize (h p))) as [Hgt|_];
    [lia|].
  eexists. split; [reflexivity|]. split; reflexivity.
Qed.

(** X12: a view on a cross product is constructed for every offset and
    size; its size is the given size and its element i is element
    offset + i of the cross product; a subvector of such a view is
    constructed for every index and size as well, and its element i is
    element index + i of the view. *)
Theorem cross_subvector_access (e : @CrossExpr T) index n :
  exists r, subvector_of_cross e index n = inr r /\ cross_subvector_size r = n /\
    (forall i, cross_subscript r i = cross_at e (sadd index i)) /\
    (forall a m, exists r',
       subvector_of_cross_subvector r a m = inr r' /\ cross_subvector_size r' = m /\
       forall i, cross_subscript r' i = cross_subscript r (sadd a i)).
Proof.
  eexists. split; [reflexivity|]. split; [reflexivity|]. split; [reflexivity|].
  intros a m. eexists. split; [reflexivity|]. split; [reflexivity|].
  intros i. unfold cross_subscript. cbn [cvector_ coffset_].
  rewrite sadd_assoc. reflexivity.
Qed.

(** *** Capacity and default state *)

(** X13: the capacity of a view is the capacity of its parent less the
    offset of the view, and the size of the view never exceeds it. *)
Theorem capacity_bounds_size h sv :
  wf_view h sv ->
  capacity h sv = capacity_of (h (vector_ sv)) - offset_ sv /\
  size sv <= capacity h sv.
Proof.
  intros (Hoff & Hsz & Hle & Hvec & _). pose proof (wf_vec_bounds _ Hvec) as Hb.
  unfold capacity, capacity_of, size. rewrite ssub_small by lia. split; [reflexivity|lia].
Qed.

Lemma count_non_default_step h sv k :
  0 <= k ->
  count_non_default h sv (k + 1)
  = count_non_default h sv k
    + (if negb (isDefault_value (subscript h sv k)) then 1 else 0).
Proof.
  intros Hk. unfold count_non_default.
  rewrite seqZ_app by lia. rewrite fmap_app, List.filter_app, List.length_app.
  rewrite (seqZ_cons (0 + k) 1) by lia.
  rewrite (seqZ_nil (Z.succ (0 + k)) (Z.pred 1)) by lia.
  rewrite Z.add_0_l. simpl.
  destruct (negb (isDefault_value (subscript h sv k))); simpl; lia.
Qed.

Lemma count_non_default_bound h sv k :
  0 <= k -> 0 <= count_non_default h sv k <= k.
Proof.
  intros Hk. unfold count_non_default.
  pose proof (List.filter_length_le (fun x => negb (isDefault_value x))
                (subscript h sv <$> seqZ 0 k)) as Hle.
  rewrite length_fmap_seqZ in Hle. lia.
Qed.

Lemma nonZeros_spec h sv :
  wf_view h sv -> nonZeros h sv = count_non_default h sv (size sv).
Proof.
  intros (Hoff & Hsz & Hle & Hvec & _). pose proof (wf_vec_bounds _ Hvec) as Hb.
  unfold nonZeros, size. rewrite sadd_small by lia.
  set (iend := offset_ sv + size_ sv).
  set (Inv := fun (i c : Z) =>
                offset_ sv <= i /\
                c = count_non_default h sv (Z.min i iend - offset_ sv)).
  match goal with
  | |- for_loop ?a ?e ?s ?b ?st = _ =>
      destruct (for_loop_rule Inv a e s b st) as (j & Hj1 & Hj2 & Hj3 & Hj4)
  end; unfold iend in *; try lia.
  - intros i c Hi [Hoi Hc]. split; [lia|].
    rewrite Z.min_l in Hc by lia. rewrite Z.min_l by lia.
    replace (i + 1 - offset_ sv) with (i - offset_ sv + 1) by lia.
    rewrite count_non_default_step by lia.
    unfold subscript. rewrite (sadd_small (offset_ sv)) by lia.
    replace (offset_ sv + (i - offset_ sv)) with i by lia.
    pose proof (count_non_default_bound h sv (i - offset_ sv) ltac:(lia)) as Hcb.
    destruct (negb (isDefault_value (vec_get (h (vector_ sv)) i))); subst c.
    + rewrite sadd_small by lia. reflexivity.
    + lia.
  - split; [lia|]. rewrite Z.min_l by lia. rewrite Z.sub_diag. reflexivity.
  - rewrite Hj4. f_equal. lia.
Qed.

Lemma count_non_default_zero h sv k :
  0 <= k ->
  count_non_default h sv k = 0 <->
  forall i, 0 <= i < k -> isDefault_value (subscript h sv i) = true.
Proof.
  intros Hk. rewrite <- (Z2Nat.id k Hk). clear Hk.
  induction (Z.to_nat k) as [|m IH].
  - split; [intros _ i Hi; lia | intros _; reflexivity].
  - rewrite Nat2Z.inj_succ, <- Z.add_1_r, count_non_default_step by lia.
    pose proof (count_non_default_bound h sv (Z.of_nat m) ltac:(lia)) as Hb.
    split.
    + intros Hsum i Hi.
      destruct (isDefault_value (subscript h sv (Z.of_nat m))) eqn:Hd;
        cbn [negb] in Hsum; [|lia].
      destruct (Z.eq_dec i (Z.of_nat m)) as [->|Hne]; [exact Hd|].
      apply IH; lia.
    + intros Hall. rewrite (Hall (Z.of_nat m)) by lia. cbn [negb].
      rewrite Z.add_0_r. apply IH. intros i Hi. apply Hall. lia.
Qed.

Lemma isDefault_from_spec h dv : forall fuel i,
  0 <= i -> size dv - i <= Z.of_nat fuel -> size dv <= 9223372036854775808 ->
  isDefault_from fuel h dv i = true <->
  forall k, i <= k < size dv -> isDefault_value (subscript h dv k) = true.
Proof.
  induction fuel as [|fuel IH]; intros i Hi Hfuel Hmax.
  - cbn [isDefault_from]. split; [intros _ k Hk; lia | reflexivity].
  - cbn [isDefault_from]. destruct (Z.ltb_spec i (size dv)) as [Hlt|Hge].
    + destruct (isDefault_value (subscript h dv i)) eqn:Hd; cbn [negb].
      * rewrite sadd_small by lia. rewrite IH by lia. split.
        -- intros Hall k Hk. destruct (Z.eq_dec k i) as [->|Hne]; [exact Hd|].
           apply Hall. lia.
        -- intros Hall k Hk. apply Hall. lia.
      * split; [discriminate|]. intros Hall. rewrite <- Hd. apply Hall. lia.
    + split; [intros _ k Hk; lia | reflexivity].
Qed.

(** X14: nonZeros() is the number of elements of the view that are not in
    default state; it lies between 0 and the size of the view. *)
Theorem nonZeros_counts h sv :
  wf_view h sv ->
  nonZeros h sv
  = Z.of_nat (length (List.filter (fun x => negb (isDefault_value x))
                        (subscript h sv <$> seqZ 0 (size sv)))) /\
  0 <= nonZeros h sv <= size sv.
Proof.
  intros Hwf. pose proof (wf_view_size_bound h sv Hwf) as Hb.
  rewrite (nonZeros_spec h sv Hwf). split; [reflexivity|].
  apply count_non_default_bound. unfold size. lia.
Qed.

(** X15: isDefault( dv ) is true exactly when every element of the view is
    in default state, which is when nonZeros() is 0; an empty view is in
    default state. *)
Theorem isDefault_iff_all_default h dv :
  wf_view h dv ->
  (isDefault h dv = true <->
     forall i, 0 <= i < size dv -> isDefault_value (subscript h dv i) = true) /\
  (isDefault h dv = true <-> nonZeros h dv = 0) /\
  (size dv = 0 -> isDefault h dv = true).
Proof.
  intros Hwf. pose proof (wf_view_size_bound h dv Hwf) as Hb. unfold size in *.
  assert (Hall : isDefault h dv = true <->
                 forall i, 0 <= i < size_ dv ->
                           isDefault_value (subscript h dv i) = true).
  { unfold isDefault. apply (isDefault_from_spec h dv); unfold size; lia. }
  split; [exact Hall|]. split.
  - rewrite (nonZeros_spec h dv Hwf). unfold size.
    rewrite count_non_default_zero by lia. exact Hall.
  - intros Hempty. apply Hall. intros i Hi. lia.
Qed.

(** X16: when the default value is in default state, a view is in default
    state after reset(): isDefault is true and nonZeros() is 0, also after
    the free functions reset and clear. *)
Theorem reset_gives_default_state h dv :
  isDefault_value zero = true -> wf_view h dv ->
  isDefault (reset dv h) dv = true /\ nonZeros (reset dv h) dv = 0 /\
  isDefault (reset_subvector dv h) dv = true /\ isDefault (clear dv h) dv = true.
Proof.
  intros Hzero Hwf. pose proof (wf_view_size_bound h dv Hwf) as Hb.
  pose proof (reset_updated h dv Hwf) as Hup.
  pose proof (wf_view_preserved _ h dv _ _ Hup Hwf) as Hwf'.
  assert (Hall : forall i, 0 <= i < size_ dv ->
                   isDefault_value (subscript (reset dv h) dv i) = true).
  { intros i Hi. rewrite (subscript_updated _ h dv _ i Hwf Hup Hi). exact Hzero. }
  assert (Hdef : isDefault (reset dv h) dv = true).
  { unfold isDefault. apply (isDefault_from_spec (reset dv h) dv); unfold size; try lia.
    intros k Hk. apply Hall. lia. }
  unfold reset_subvector, clear. split; [exact Hdef|]. split; [|split; exact Hdef].
  rewrite (nonZeros_spec _ dv Hwf'). unfold size.
  apply count_non_default_zero; [lia|exact Hall].
Qed.

(** *** Iterators *)

Lemma iterate_pre_increment (it : SubvectorIterator) (k : nat) :
  Nat.iter k it_pre_increment it = it_plus it (Z.of_nat k).
Proof.
  induction k as [|k IH].
  - destruct it as [[a p]]. unfold it_plus, vec_it_plus. cbn. rewrite Z.add_0_r. reflexivity.
  - rewrite Nat2Z.inj_succ, Nat.iter_succ, IH.
    unfold it_pre_increment, it_plus, vec_it_plus. cbn. do 2 f_equal. lia.
Qed.

(** X17: stepping from begin() with ++ visits the elements of the view in
    order: after k steps, k at most the size, the iterator is begin() + k,
    it dereferences to element k of the view when k is below the size, and
    it differs from end() exactly when k is below the size.  The postfix
    ++ returns the iterator as it was, and -- undoes ++. *)
Theorem iterator_traversal h sv (k : nat) :
  wf_view h sv -> Z.of_nat k <= size sv ->
  let it := Nat.iter k it_pre_increment (begin sv) in
  it = it_plus (begin sv) (Z.of_nat k) /\
  it_difference it (begin sv) = Z.of_nat k /\
  it_neqb it (end_ sv) = (Z.of_nat k <? size sv) /\
  (Z.of_nat k < size sv -> it_deref h it = subscript h sv (Z.of_nat k)) /\
  it_post_increment it = (it, it_pre_increment it) /\
  it_pre_decrement (it_pre_increment it) = it.
Proof.
  intros (Hoff & Hsz & Hle & Hvec & _) Hk it. pose proof (wf_vec_bounds _ Hvec) as Hb.
  assert (Hit : it = it_plus (begin sv) (Z.of_nat k)) by apply iterate_pre_increment.
  split; [exact Hit|]. rewrite Hit. clear it Hit. unfold size in *.
  unfold it_difference, it_neqb, it_deref, it_post_increment, it_pre_decrement,
    it_pre_increment, it_plus, begin, end_, vec_it_eqb, vec_it_deref, vec_it_plus,
    vec_it_minus, vec_begin, subscript.
  cbn [iterator_ it_vector it_pos].
  split; [lia|]. split.
  - rewrite Nat.eqb_refl. cbn [andb].
    destruct (Z.eqb_spec (0 + offset_ sv + Z.of_nat k) (0 + offset_ sv + size_ sv));
      destruct (Z.ltb_spec (Z.of_nat k) (size_ sv)); cbn [negb]; try reflexivity; lia.
  - split; [|split].
    + intros Hlt. rewrite sadd_small by lia. reflexivity.
    + reflexivity.
    + do 2 f_equal. lia.
Qed.

(** X18: begin() and end() delimit the view: end() - begin() is the size,
    begin() + size is end(), and they compare equal exactly for an empty
    view; for an index i below the size, begin() + i, i + begin(),
    data() + i and end() moved back by size - i all refer to element i of
    the view, begin() + i is less than end(), and the register the
    iterator loads there holds the consecutive elements of the parent
    from offset + i on.  cbegin() and cend() are begin() and end(). *)
Theorem iterator_range h sv :
  wf_view h sv ->
  it_difference (end_ sv) (begin sv) = size sv /\
  it_plus (begin sv) (size sv) = end_ sv /\
  cbegin sv = begin sv /\ cend sv = end_ sv /\ iterator_ (begin sv) = data sv /\
  it_leb (begin sv) (end_ sv) = true /\
  (it_eqb (begin sv) (end_ sv) = true <-> size sv = 0) /\
  (forall i, 0 <= i < size sv ->
     it_deref h (it_plus (begin sv) i) = subscript h sv i /\
     it_deref h (plus_it i (begin sv)) = subscript h sv i /\
     vec_it_deref h (vec_it_plus (data sv) i) = subscript h sv i /\
     it_deref h (minus_it (ssub (size sv) i) (end_ sv)) = subscript h sv i /\
     it_ltb (it_plus (begin sv) i) (end_ sv) = true /\
     (forall j, 0 <= j < IT_size ->
        lane (it_loadu h (it_plus (begin sv) i)) j
        = vec_get (h (vector_ sv)) (offset_ sv + i + j) /\
        it_load h (it_plus (begin sv) i) = it_loadu h (it_plus (begin sv) i))).
Proof.
  intros (Hoff & Hsz & Hle & Hvec & _). pose proof (wf_vec_bounds _ Hvec) as Hb.
  unfold size.
  unfold it_difference, it_leb, it_eqb, it_ltb, it_deref, it_load, it_loadu, it_plus,
    plus_it, minus_it, begin, end_, cbegin, cend, data, vec_it_eqb, vec_it_deref,
    vec_it_loadu, vec_it_plus, vec_it_minus, vec_begin, subscript.
  cbn [iterator_ it_vector it_pos].
  split; [lia|]. split; [reflexivity|]. split; [reflexivity|]. split; [reflexivity|].
  split; [reflexivity|]. split; [apply Z.leb_le; lia|]. split.
  - rewrite Nat.eqb_refl. cbn [andb]. rewrite Z.eqb_eq. lia.
  - intros i Hi. rewrite sadd_small by lia. rewrite ssub_small by lia.
    split; [reflexivity|]. split; [reflexivity|]. split; [reflexivity|].
    split; [f_equal; lia|]. split; [apply Z.ltb_lt; lia|].
    intros j Hj. split; [|reflexivity].
    rewrite lane_vec_loadu by exact Hj. f_equal.
Qed.

(** *** Addition followed by subtraction *)

Lemma operand_stable h h1 rhs (p : addr) :
  op_canAlias rhs p = false -> (forall b, b <> p -> h1 b = h b) ->
  wf_operand h rhs -> wf_operand h1 rhs /\ op_size h1 rhs = op_size h rhs.
Proof.
  intros Hno Hsame Hop. destruct rhs as [a|s|v|s]; cbn in *.
  - apply Nat.eqb_neq in Hno. rewrite (Hsame a Hno). split; [exact Hop|reflexivity].
  - unfold canAlias in Hno. apply Nat.eqb_neq in Hno. split; [|reflexivity].
    unfold wf_view, DenseSubvector_ctor in *. rewrite (Hsame _ Hno). exact Hop.
  - split; [exact Hop|reflexivity].
  - split; [exact Hop|reflexivity].
Qed.

(** X19: when subtraction undoes addition on the element type, adding a
    right-hand side that does not alias the parent of the view and then
    subtracting it again restores every vector of the store: both
    operators return normally and every element of the view has its
    value from before. *)
Theorem add_then_subtract_restores h sv rhs :
  (forall a b : T, sub (add a b) b = a) ->
  (vectorizable = true -> wf_traits) -> wf_view h sv -> wf_operand h rhs ->
  op_size h rhs = size sv -> op_canAlias rhs (vector_ sv) = false ->
  exists h1 h2,
    operator_add_assign sv rhs h = (h1, inr tt) /\
    operator_sub_assign sv rhs h1 = (h2, inr tt) /\
    same_vectors h2 h /\
    (forall i, 0 <= i < size sv -> subscript h2 sv i = subscript h sv i).
Proof.
  intros Hlaw Htr Hwf Hop Hsize Hno.
  destruct (operator_add_assign_updated h sv rhs Htr Hwf Hop Hsize) as (h1 & Ha & Hua).
  pose proof (wf_view_preserved _ h sv _ _ Hua Hwf) as Hwf1.
  pose proof Hua as (Hsame & _).
  destruct (operand_stable h h1 rhs (vector_ sv) Hno Hsame Hop) as (Hop1 & Hsize1).
  rewrite <- Hsize1 in Hsize.
  destruct (operator_sub_assign_updated h1 sv rhs Htr Hwf1 Hop1 Hsize) as (h2 & Hs & Hus).
  pose proof (updated_trans _ _ h sv h1 h2 Hwf Hua Hus) as Hboth.
  assert (Hid : updated (fun _ old => old) sv h h2).
  { eapply updated_ext; [|exact Hboth]. intros k x. cbn beta.
    unfold combined. destruct rhs as [a|s|v|s].
    - rewrite (op_at_stable h h1 (OpVector a) (vector_ sv) k Hno Hsame). apply Hlaw.
    - rewrite (op_at_stable h h1 (OpSubvector s) (vector_ sv) k Hno Hsame). apply Hlaw.
    - apply Hlaw.
    - unfold sparse_result.
      destruct (List.find (fun e => fst e =? k) (sp_elements s)); [apply Hlaw|reflexivity]. }
  exists h1, h2. split; [exact Ha|]. split; [exact Hs|]. split.
  - exact (updated_same_vectors _ h sv h2 h Hwf Hid (updated_id h sv)).
  - intros i Hi. apply (subscript_updated _ h sv h2 i Hwf Hid Hi).
Qed.

(** *** The vector objects, and the two assignment operators *)

Lemma updated_keeps_objects g h sv (run : @Heap T * (exn + unit)) :
  wf_view h sv ->
  (exists h', run = (h', inr tt) /\ updated g sv h h') ->
  returns_keeping_objects sv h run.
Proof.
  intros Hwf (h' & Hrun & Hup). exists h'. split; [exact Hrun|].
  pose proof (wf_view_preserved _ h sv _ _ Hup Hwf) as Hwf'.
  destruct Hup as (Hother & Hsize & Hlen & _).
  split; [exact Hother|]. split; [exact Hsize|]. split; [|exact Hwf'].
  unfold capacity_of. rewrite Hlen. reflexivity.
Qed.

(** X20: with a right-hand side of the size of the view, each of the
    operators =, +=, -= and *= returns normally, leaves every vector
    object other than the parent of the view exactly as it was, padding
    included, keeps the size and the capacity of the parent, and leaves
    the view a valid view of the store. *)
Theorem operators_keep_vector_objects h sv rhs :
  (vectorizable = true -> wf_traits) -> wf_view h sv -> wf_operand h rhs ->
  op_size h rhs = size sv ->
  returns_keeping_objects sv h (operator_assign sv rhs h) /\
  returns_keeping_objects sv h (operator_add_assign sv rhs h) /\
  returns_keeping_objects sv h (operator_sub_assign sv rhs h) /\
  returns_keeping_objects sv h (operator_mult_assign sv rhs h).
Proof.
  intros Htr Hwf Hop Hsize. split; [|split; [|split]].
  - apply (updated_keeps_objects _ h sv _ Hwf
             (operator_assign_updated h sv rhs Htr Hwf Hop Hsize)).
  - apply (updated_keeps_objects _ h sv _ Hwf
             (operator_add_assign_updated h sv rhs Htr Hwf Hop Hsize)).
  - apply (updated_keeps_objects _ h sv _ Hwf
             (operator_sub_assign_updated h sv rhs Htr Hwf Hop Hsize)).
  - apply (updated_keeps_objects _ h sv _ Hwf
             (operator_mult_assign_updated h sv rhs Htr Hwf Hop Hsize)).
Qed.

(** X21: for a source view of the size of the target, the copy assignment
    agrees with the assignment of the source as a vector: when the two
    views differ in their parent or their offset the two operators are
    the same computation, and when they have the same parent and the same
    offset, where the copy assignment returns at once, the assignment as
    a vector leaves the same vectors behind. *)
Theorem copy_assignment_agrees_with_vector_assignment h sv (s : DenseSubvector) :
  (vectorizable = true -> wf_traits) -> wf_view h sv -> wf_view h s ->
  size s = size sv ->
  (vector_ sv <> vector_ s \/ offset_ sv <> offset_ s ->
     operator_assign_copy sv s h = operator_assign sv (OpSubvector s) h) /\
  (vector_ sv = vector_ s -> offset_ sv = offset_ s ->
     exists h', operator_assign sv (OpSubvector s) h = (h', inr tt) /\
       same_vectors h' (fst (operator_assign_copy sv s h))).
Proof.
  intros Htr Hwf Hwfs Hsize. split.
  - intros Hdiff.
    assert (Hguard : Nat.eqb (vector_ sv) (vector_ s) && (offset_ sv =? offset_ s) = false).
    { apply andb_false_iff. destruct Hdiff as [Hv|Ho].
      - left. apply Nat.eqb_neq. exact Hv.
      - right. apply Z.eqb_neq. exact Ho. }
    unfold operator_assign_copy, operator_assign, bind, gets, throw, modify, ret.
    rewrite Hguard. cbn [op_size op_canAlias IsSparseVector].
    rewrite Hsize, Z.eqb_refl. cbn [negb].
    destruct (canAlias s (vector_ sv)); reflexivity.
  - intros Hv Ho.
    destruct (operator_assign_updated h sv (OpSubvector s) Htr Hwf Hwfs Hsize)
      as (h' & Hrun & Hup).
    exists h'. split; [exact Hrun|].
    unfold operator_assign_copy. rewrite Hv, Ho, Nat.eqb_refl, Z.eqb_refl.
    cbn [andb ret fst].
    assert (Hid : updated (fun _ old => old) sv h h').
    { eapply updated_ext_at; [|exact Hup]. intros k Hk. cbn [op_at].
      unfold subscript. rewrite <- Hv, <- Ho.
      pose proof Hwf as (Hoff & Hsz & Hle & Hvec & _).
      pose proof (wf_vec_bounds _ Hvec) as Hb.
      rewrite sadd_small by lia. reflexivity. }
    exact (updated_same_vectors _ h sv h' h Hwf Hid (updated_id h sv)).
Qed.

End Properties.

(** ** The further properties at work *)

Lemma two_stored_elements_wf : wf_sparse (mkSparseVector 4 [(0, 2); (3, 3)]).
Proof.
  split; [vm_compute; congruence|]. split.
  - intros e He. apply elem_of_cons in He. destruct He as [->|He];
      [vm_compute; split; congruence|].
    apply elem_of_cons in He. destruct He as [->|He];
      [vm_compute; split; congruence|].
    apply elem_of_nil in He. destruct He.
  - apply NoDup_cons_2; [|apply NoDup_cons_2; [|apply NoDup_nil_2]].
    + intros He. apply elem_of_cons in He. destruct He as [He|He]; [discriminate|].
      apply elem_of_nil in He. exact He.
    + intros He. apply elem_of_nil in He. exact He.
Qed.

(** The witness of X1: the view of seven elements from index 1 combined
    with the overlapping view of seven elements from index 3. *)
Lemma dense_compound_assignment_witness :
  let h := single_heap padded10 in
  let view := view_of (traits := simd4_traits) h 0%nat 1 7 in
  let source := OpSubvector (view_of (traits := simd4_traits) h 0%nat 3 7) in
  exists ha hs hm,
    operator_add_assign (traits := simd4_traits) view source h = (ha, inr tt) /\
    operator_sub_assign (traits := simd4_traits) view source h = (hs, inr tt) /\
    operator_mult_assign (traits := simd4_traits) view source h = (hm, inr tt) /\
    subscript ha view 6 = 16 /\ subscript hs view 6 = -2 /\ subscript hm view 6 = 63.
Proof.
  intros h view source.
  destruct (dense_compound_assignment (traits := simd4_traits) h view source)
    as (ha & hs & hm & Ha & Hs & Hm & Hel);
    [intros _; exact simd4_traits_wf | subst h view; compute_wf | reflexivity
    | subst h source; compute_wf | reflexivity |].
  exists ha, hs, hm. split; [exact Ha|]. split; [exact Hs|]. split; [exact Hm|].
  destruct (Hel 6) as (E1 & E2 & E3); [vm_compute; split; congruence|].
  rewrite E1, E2, E3. vm_compute. repeat split; reflexivity.
Defined.

(** The witness of X2: the view 1, 2, 3, 4 and the sparse vector that
    stores 2 at index 0 and 3 at index 3. *)
Lemma sparse_compound_assignment_witness :
  let h := single_heap padded10 in
  let view := view_of (traits := simd4_traits) h 0%nat 1 4 in
  let s := mkSparseVector 4 [(0, 2); (3, 3)] in
  exists ha hs,
    operator_add_assign (traits := simd4_traits) view (OpSparse s) h = (ha, inr tt) /\
    operator_sub_assign (traits := simd4_traits) view (OpSparse s) h = (hs, inr tt) /\
    subscript ha view 3 = 7 /\ subscript hs view 3 = 1 /\
    subscript ha view 1 = 2 /\ subscript hs view 1 = 2.
Proof.
  intros h view s.
  destruct (sparse_compound_assignment (traits := simd4_traits) h view s)
    as (ha & hs & Ha & Hs & Hin & Hout);
    [subst h view; compute_wf | exact two_stored_elements_wf | reflexivity |].
  exists ha, hs. split; [exact Ha|]. split; [exact Hs|].
  destruct (Hin 3 3) as (E1 & E2); [right; left|].
  destruct (Hout 1) as (E3 & E4); [vm_compute; split; congruence | |].
  { intros He. apply elem_of_cons in He. destruct He as [He|He]; [discriminate|].
    apply elem_of_cons in He. destruct He as [He|He]; [discriminate|].
    apply elem_of_nil in He. exact He. }
  rewrite E1, E2, E3, E4. vm_compute. repeat split; reflexivity.
Defined.

(** The witness of X3: the value 7 assigned to the view of seven elements
    from index 1. *)
Lemma homogeneous_assignment_witness :
  let h := single_heap padded10 in
  let view := view_of (traits := simd4_traits) h 0%nat 1 7 in
  subscript (operator_assign_value view 7 h) view 6 = 7 /\
  subscript (reset view h) view 6 = 0.
Proof.
  intros h view.
  destruct (homogeneous_assignment (traits := simd4_traits) h view 7) as (Hfill & Hreset & _);
    [subst h view; compute_wf|].
  split; [apply Hfill | apply Hreset]; vm_compute; split; congruence.
Defined.

(** The witness of X4: the view 1..7 scaled by 3 and then by 2. *)
Lemma scale_multiplies_witness :
  let h := single_heap padded10 in
  let view := view_of (traits := simd4_traits) h 0%nat 1 7 in
  subscript (scale view 3 h) view 6 = 21 /\
  subscript (scale view 2 (scale view 3 h)) view 6 = 42.
Proof.
  intros h view.
  destruct (scale_multiplies (traits := simd4_traits) h view 3 2) with (i := 6) as (E1 & E2);
    [subst h view; compute_wf | vm_compute; split; congruence |].
  rewrite E1, E2. vm_compute. split; reflexivity.
Defined.

(** The witness of X5: a vector of two elements for a view of four. *)
Lemma size_mismatch_is_reported_witness :
  let h := single_heap parent10 in
  let view := view_of (traits := scalar_traits) h 0%nat 0 4 in
  operator_add_assign (traits := scalar_traits) view (OpTemp (vec_of [1; 2])) h
  = (h, inl (invalid_argument "Vector sizes do not match")).
Proof.
  intros h view.
  apply (size_mismatch_is_reported (traits := scalar_traits) h view (OpTemp (vec_of [1; 2]))).
  vm_compute. discriminate.
Defined.

(** The witness of X6: seven elements combined from index 1 on. *)
Lemma compound_kernels_agree_witness :
  let h := two_heap padded10 (padded_vec_of [10; 11; 12; 13; 14; 15; 16] 8) in
  let view := view_of (traits := simd4_traits) h 0%nat 1 7 in
  same_vectors (multAssign_default view (OpVector 1%nat) h)
    (multAssign_vectorized (traits := simd4_traits) view (OpVector 1%nat) h) /\
  subscript (multAssign_vectorized (traits := simd4_traits) view (OpVector 1%nat) h) view 6
  = 112.
Proof.
  intros h view.
  destruct (compound_kernels_agree (traits := simd4_traits) h view (OpVector 1%nat))
    as (_ & _ & Hm & Hel);
    [exact simd4_traits_wf | subst h view; compute_wf | reflexivity
    | subst h; compute_wf | reflexivity | reflexivity |].
  split; [exact Hm|].
  destruct (Hel 6) as (_ & _ & E); [vm_compute; split; congruence|].
  rewrite E. vm_compute. reflexivity.
Defined.

(** The witness of X7: the partial last register of the view of seven
    elements from index 1. *)
Lemma storeu_loadu_round_trip_witness :
  let h := single_heap padded10 in
  let view := view_of (traits := simd4_traits) h 0%nat 1 7 in
  lane (loadu (traits := simd4_traits) h view 4) 2 = 7 /\
  lane (loadu (traits := simd4_traits)
          (storeu view 4 [40; 41; 42; 43] h) view 4) 2 = 42.
Proof.
  intros h view. split; [vm_compute; reflexivity|].
  destruct (storeu_loadu_round_trip (traits := simd4_traits) h view 4 [40; 41; 42; 43])
    with (j := 2) as (E & _);
    [exact simd4_traits_wf | subst h view; compute_wf | exists 1; reflexivity
    | vm_compute; split; congruence | reflexivity | vm_compute; split; congruence
    | vm_compute; reflexivity |].
  rewrite E. reflexivity.
Defined.

(** The witness of X8: seven elements with registers of four. *)
Lemma constructor_caches_register_split_witness :
  let h := single_heap padded10 in
  let view := view_of (traits := simd4_traits) h 0%nat 1 7 in
  rest_ view = 3 /\ final_ view + rest_ view = 7 /\ (4 | final_ view).
Proof.
  intros h view.
  destruct (constructor_caches_register_split (traits := simd4_traits) h 0%nat 1 7 view)
    as (_ & _ & _ & Hrest & _ & Hsum & Hdiv & _);
    [reflexivity | vm_compute; split; congruence | reflexivity |].
  split; [rewrite Hrest; reflexivity|]. split; [exact Hsum|exact Hdiv].
Defined.

(** The witness of X9: four elements from index 3 of the view of four
    elements from index 2: the subvector ends three elements after the
    view. *)
Lemma nested_subvector_reads_outer_witness :
  let h := single_heap padded10 in
  let dv := view_of (traits := simd4_traits) h 0%nat 2 4 in
  3 + 4 > size dv /\
  exists r, subvector_of_subvector (traits := simd4_traits) h dv 3 4 = inr r /\
    size r = 4 /\ subscript h r 3 = 8.
Proof.
  intros h dv. split; [vm_compute; reflexivity|].
  destruct (nested_subvector_reads_outer (traits := simd4_traits) h dv 3 4)
    as (r & Hr & Hs & _ & Hread);
    [reflexivity | subst h dv; compute_wf | lia | lia | vm_compute; congruence |].
  exists r. split; [exact Hr|]. split; [exact Hs|].
  destruct (Hread 3) as (E & _); [lia|]. rewrite E. vm_compute. reflexivity.
Defined.

(** The witness of X10: index 1 of index 2 of the view from index 1 is
    index 3 of that view. *)
Lemma nested_subvector_flattens_witness :
  let h := single_heap padded10 in
  let dv := view_of (traits := simd4_traits) h 0%nat 1 8 in
  let r := view_of (traits := simd4_traits) h 0%nat 3 5 in
  subvector_of_subvector (traits := simd4_traits) h r 1 3
  = subvector_of_subvector (traits := simd4_traits) h dv (sadd 2 1) 3.
Proof.
  intros h dv r.
  apply (nested_subvector_flattens (traits := simd4_traits) h dv 2 5 1 3 r).
  vm_compute. reflexivity.
Defined.

(** The witness of X11: two elements from index 2^64 - 1 of a vector of
    ten. *)
Lemma constructor_accepts_wrapped_sum_witness :
  exists sv, subvector (traits := scalar_traits) (single_heap parent10) 0%nat SIZE_MAX 2
             = inr sv /\ offset_ sv = SIZE_MAX /\ size sv = 2.
Proof.
  apply (constructor_accepts_wrapped_sum (traits := scalar_traits)
           (single_heap parent10) 0%nat SIZE_MAX 2);
    [vm_compute; split; congruence | vm_compute; split; congruence
    | vm_compute; reflexivity | vm_compute; congruence].
Defined.

(** The witness of X13: the view of seven elements from index 1 of a
    parent with a capacity of twelve. *)
Lemma capacity_bounds_size_witness :
  let h := single_heap padded10 in
  let view := view_of (traits := simd4_traits) h 0%nat 1 7 in
  capacity h view = 11 /\ size view <= capacity h view.
Proof.
  intros h view.
  destruct (capacity_bounds_size (traits := simd4_traits) h view) as (Hcap & Hle); [subst h view; compute_wf|].
  split; [rewrite Hcap; reflexivity | exact Hle].
Defined.

(** The witness of X14: three of the five elements 0, 3, 0, 5, 6 are not
    0. *)
Lemma nonZeros_counts_witness :
  let h := single_heap (vec_of [0; 3; 0; 5; 6]) in
  let view := view_of (traits := scalar_traits) h 0%nat 0 5 in
  nonZeros h view = 3.
Proof.
  intros h view.
  destruct (nonZeros_counts (traits := scalar_traits) h view) as (Hcount & _); [subst h view; compute_wf|].
  rewrite Hcount. vm_compute. reflexivity.
Defined.

(** The witness of X15: the two zeros in the middle of 1, 0, 0, 4. *)
Lemma isDefault_iff_all_default_witness :
  let h := single_heap (vec_of [1; 0; 0; 4]) in
  isDefault h (view_of (traits := scalar_traits) h 0%nat 1 2) = true /\
  nonZeros h (view_of (traits := scalar_traits) h 0%nat 1 2) = 0.
Proof.
  intros h.
  destruct (isDefault_iff_all_default (traits := scalar_traits) h (view_of (traits := scalar_traits) h 0%nat 1 2))
    as (_ & Hiff & _); [subst h; compute_wf|].
  assert (Hz : nonZeros h (view_of (traits := scalar_traits) h 0%nat 1 2) = 0)
    by (vm_compute; reflexivity).
  split; [apply Hiff; exact Hz | exact Hz].
Defined.

(** The witness of X16: the view of seven elements from index 1 after
    reset(). *)
Lemma reset_gives_default_state_witness :
  let h := single_heap padded10 in
  let view := view_of (traits := simd4_traits) h 0%nat 1 7 in
  isDefault h view = false /\
  isDefault (reset view h) view = true /\ nonZeros (reset view h) view = 0.
Proof.
  intros h view. split; [vm_compute; reflexivity|].
  destruct (reset_gives_default_state (traits := simd4_traits) h view) as (Hd & Hn & _);
    [reflexivity | subst h view; compute_wf |].
  split; [exact Hd | exact Hn].
Defined.

(** The witness of X17: two steps from the start of the view 3, 4, 5,
    6. *)
Lemma iterator_traversal_witness :
  let h := single_heap padded10 in
  let view := view_of (traits := simd4_traits) h 0%nat 3 4 in
  it_deref h (Nat.iter 2 it_pre_increment (begin view)) = 5 /\
  it_neqb (Nat.iter 2 it_pre_increment (begin view)) (end_ view) = true /\
  it_neqb (Nat.iter 4 it_pre_increment (begin view)) (end_ view) = false.
Proof.
  intros h view.
  assert (Hwf : wf_view (traits := simd4_traits) h view) by (subst h view; compute_wf).
  pose proof (iterator_traversal (traits := simd4_traits) h view 2 Hwf ltac:(vm_compute; congruence)) as H2.
  pose proof (iterator_traversal (traits := simd4_traits) h view 4 Hwf ltac:(vm_compute; congruence)) as H4.
  cbv zeta in H2, H4.
  destruct H2 as (_ & _ & Hne2 & Hd2 & _). destruct H4 as (_ & _ & Hne4 & _).
  split; [|split].
  - rewrite Hd2 by (vm_compute; reflexivity). vm_compute. reflexivity.
  - rewrite Hne2. vm_compute. reflexivity.
  - rewrite Hne4. vm_compute. reflexivity.
Defined.

(** The witness of X18: the view 3, 4, 5, 6. *)
Lemma iterator_range_witness :
  let h := single_heap padded10 in
  let view := view_of (traits := simd4_traits) h 0%nat 3 4 in
  it_difference (end_ view) (begin view) = 4 /\
  it_deref h (it_plus (begin view) 2) = 5 /\
  it_deref h (minus_it 1 (end_ view)) = 6.
Proof.
  intros h view.
  destruct (iterator_range (traits := simd4_traits) h view) as (Hdiff & _);
    [subst h view; compute_wf|].
  split; [exact Hdiff|]. vm_compute. split; reflexivity.
Defined.

(** The witness of X19: the vector 10..16 added to the view of seven
    elements from index 1 and subtracted again. *)
Lemma add_then_subtract_restores_witness :
  let h := two_heap padded10 (padded_vec_of [10; 11; 12; 13; 14; 15; 16] 8) in
  let view := view_of (traits := simd4_traits) h 0%nat 1 7 in
  exists h1 h2,
    operator_add_assign (traits := simd4_traits) view (OpVector 1%nat) h = (h1, inr tt) /\
    operator_sub_assign (traits := simd4_traits) view (OpVector 1%nat) h1 = (h2, inr tt) /\
    subscript h1 view 6 = 23 /\ same_vectors h2 h.
Proof.
  intros h view.
  destruct (add_then_subtract_restores (traits := simd4_traits) h view (OpVector 1%nat))
    as (h1 & h2 & Ha & Hs & Hsame & _);
    [intros a b; cbn; lia | intros _; exact simd4_traits_wf | subst h view; compute_wf
    | subst h; compute_wf | reflexivity | reflexivity |].
  exists h1, h2. split; [exact Ha|]. split; [exact Hs|]. split; [|exact Hsame].
  replace h1 with (fst (operator_add_assign (traits := simd4_traits) view (OpVector 1%nat) h))
    by (rewrite Ha; reflexivity).
  vm_compute. reflexivity.
Defined.

(** The witness of X20: the overlapping view of seven elements from index
    3 subtracted from the view of seven elements from index 1; the other
    vector of the store is as it was. *)
Lemma operators_keep_vector_objects_witness :
  let h := two_heap padded10 (padded_vec_of [10; 11; 12; 13; 14; 15; 16] 8) in
  let view := view_of (traits := simd4_traits) h 0%nat 1 7 in
  let source := OpSubvector (view_of (traits := simd4_traits) h 0%nat 3 7) in
  exists h', operator_sub_assign (traits := simd4_traits) view source h = (h', inr tt) /\
    h' 1%nat = h 1%nat /\ vsize (h' 0%nat) = 10 /\ capacity_of (h' 0%nat) = 12.
Proof.
  intros h view source.
  destruct (operators_keep_vector_objects (traits := simd4_traits) h view source)
    as (_ & _ & (h' & Hrun & Hother & Hsize & Hcap & _) & _);
    [intros _; exact simd4_traits_wf | subst h view; compute_wf
    | subst h source; compute_wf | reflexivity |].
  exists h'. split; [exact Hrun|]. split; [apply Hother; discriminate|].
  split; [exact Hsize | exact Hcap].
Defined.

(** The witness of X21: the view of five elements from index 0 assigned
    from the view of five elements from index 2 of the same parent. *)
Lemma copy_assignment_agrees_with_vector_assignment_witness :
  let h := single_heap padded10 in
  let target := view_of (traits := simd4_traits) h 0%nat 0 5 in
  let source := view_of (traits := simd4_traits) h 0%nat 2 5 in
  operator_assign_copy (traits := simd4_traits) target source h
  = operator_assign (traits := simd4_traits) target (OpSubvector source) h.
Proof.
  intros h target source.
  destruct (copy_assignment_agrees_with_vector_assignment (traits := simd4_traits)
              h target source) as (Hdiff & _);
    [intros _; exact simd4_traits_wf | subst h target; compute_wf
    | subst h source; compute_wf | reflexivity |].
  apply Hdiff. right. vm_compute. discriminate.
Defined.
